(** * Courseware search indexing (xmodule/modulestore/courseware_index.py)

    A shallow embedding of [CoursewareSearchIndexer.index_course] and of its
    two closures [index_item] and [remove_deleted_items], together with the
    properties of the walk, of the reconciliation step and of the error
    aggregation. *)

From stdpp Require Import gmap strings list fin_maps.
From Stdlib Require Import ZArith Lia.

Local Open Scope string_scope.
Local Open Scope Z_scope.

(** ** Constants of the module *)

Definition INDEX_NAME : string := "courseware_index".
Definition DOCUMENT_TYPE : string := "courseware_content".

(** [REINDEX_AGE = timedelta(0, 60)]: date-times are counted in seconds, so
    the difference of two of them is compared with 60. *)
Definition REINDEX_AGE : Z := 60.

(** ** Python values and outcomes *)

(** The exceptions that occur in the module: the aggregated
    [SearchIndexingError] with its [error_list], the errors Python raises
    itself, and a fault of a collaborator (content store, item, search
    engine). *)
Inductive exn : Type :=
| SearchIndexingError (message : string) (error_list : list string)
| TypeError
| AttributeError
| KeyError
| CollaboratorError (what : string).

Inductive outcome (A : Type) : Type :=
| Returns (a : A)
| Raises (e : exn).
Arguments Returns {A} a.
Arguments Raises {A} e.

(** Field values of an index document. *)
Inductive value : Type :=
| VStr (s : string)
| VDate (t : Z)
| VInt (n : Z).

#[global] Instance value_eq_dec : EqDecision value.
Proof. solve_decision. Defined.

Abbreviation Doc := (gmap string value).

(** ** Content items

    What [index_item] reads of an xblock: [scope_ids.usage_id] and
    [location] in their string form, the optional [start] and
    [subtree_edited_on] date-times, the [has_children] flag, the
    [get_children()] call, and [index_dictionary], which is absent on an
    item that is not indexable ([hasattr] is false) and is otherwise a call
    that returns [None] or a dictionary, or raises. *)
#[warnings="-register-all"]
Inductive Item : Type :=
  mkItem {
    usage_id : string;
    location : string;
    start : option Z;
    subtree_edited_on : option Z;
    has_children : bool;
    get_children : outcome (list Item);
    index_dictionary : option (outcome (option Doc))
  }.

(** ** The search engine client

    Modelled from the spec: the search engine client is an external
    collaborator, known by its interface [index(doc_type, document)],
    [search(doc_type, field filter, exclude_ids)] and [remove(doc_type, id)].
    The engine holds at most one document under a document type and an id,
    and a stored document always shows the id it is held under as its [id]
    field; indexing a document files it under its own [id] field and
    overwrites what was there; a search returns the stored documents of the
    type whose fields equal the filter and whose id is not excluded; a
    removal takes away the document under the type and the id. Each call
    may fail: [index_raises], [search_raises] and [remove_raises] say on
    which arguments. *)
Record SearchEngine : Type :=
  mkEngine {
    documents : gmap (string * string) Doc;
    index_raises : Doc -> bool;
    search_raises : bool;
    remove_raises : string -> bool
  }.

Definition with_documents (e : SearchEngine) (ds : gmap (string * string) Doc) : SearchEngine :=
  {| documents := ds;
     index_raises := index_raises e;
     search_raises := search_raises e;
     remove_raises := remove_raises e |}.

(** The [id] field of a document, when it has one. *)
Definition doc_id (d : Doc) : option string :=
  match d !! "id" with
  | Some (VStr s) => Some s
  | _ => None
  end.

(** The [data] of the document held under [id]. *)
Definition stored_data (id : string) (d : Doc) : Doc := <["id" := VStr id]> d.

Definition engine_index (doc_type : string) (d : Doc) (e : SearchEngine) : outcome unit * SearchEngine :=
  match doc_id d with
  | Some id =>
      if index_raises e d then (Raises (CollaboratorError "index"), e)
      else (Returns tt, with_documents e (<[(doc_type, id) := d]> (documents e)))
  | None => (Raises (CollaboratorError "index"), e)
  end.

(** A document matches a field dictionary when each field of the
    dictionary has the same value in the document. *)
Definition matches_fields (field_dictionary d : Doc) : bool :=
  bool_decide (map_Forall (fun k v => d !! k = Some v) field_dictionary).

Definition search_hit (doc_type : string) (field_dictionary : Doc) (exclude_ids : gset string)
    (entry : string * string * Doc) : bool :=
  bool_decide (entry.1.1 = doc_type)
  && matches_fields field_dictionary (stored_data entry.1.2 entry.2)
  && negb (bool_decide (entry.1.2 ∈ exclude_ids)).

(** The response of a search, as the list of the [data] of its [results]. *)
Definition engine_search (doc_type : string) (field_dictionary : Doc) (exclude_ids : gset string)
    (e : SearchEngine) : outcome (list Doc) :=
  if search_raises e then Raises (CollaboratorError "search")
  else Returns ((fun entry => stored_data entry.1.2 entry.2) <$>
                  List.filter (search_hit doc_type field_dictionary exclude_ids)
                    (map_to_list (documents e))).

Definition engine_remove (doc_type : string) (id : string) (e : SearchEngine) : outcome unit * SearchEngine :=
  if remove_raises e id then (Raises (CollaboratorError "remove"), e)
  else (Returns tt, with_documents e (delete (doc_type, id) (documents e))).

(** ** The state of one pass

    [index_item] and [remove_deleted_items] are closures over the
    accumulators [indexed_items] and [error_list] and over the [searcher];
    an exception leaves what was written before it in place. *)
Record state : Type :=
  mkState {
    indexed_items : gset string;
    error_list : list string;
    searcher : SearchEngine
  }.

Definition M (A : Type) : Type := state -> outcome A * state.

Definition ret {A} (a : A) : M A := fun st => (Returns a, st).

Definition raise {A} (e : exn) : M A := fun st => (Raises e, st).

Definition bind {A B} (m : M A) (k : A -> M B) : M B :=
  fun st =>
    match m st with
    | (Returns a, st') => k a st'
    | (Raises e, st') => (Raises e, st')
    end.

Definition lift {A} (o : outcome A) : M A :=
  match o with
  | Returns a => ret a
  | Raises e => raise e
  end.

(** [try: body except Exception as err: handler] *)
Definition try_except {A} (body : M A) (handler : exn -> M A) : M A :=
  fun st =>
    match body st with
    | (Returns a, st') => (Returns a, st')
    | (Raises e, st') => handler e st'
    end.

#[global] Instance M_ret : MRet M := @ret.
#[global] Instance M_bind : MBind M := fun A B k m => bind m k.

Section for_each.
Context {A : Type} (body : A -> M unit).

(** [for x in l: body x] *)
Fixpoint for_each (l : list A) : M unit :=
  match l with
  | [] => ret tt
  | x :: l' => body x;; for_each l'
  end.
End for_each.

Definition indexed_items_add (item_id : string) : M unit :=
  fun st => (Returns tt,
             {| indexed_items := {[item_id]} ∪ indexed_items st;
                error_list := error_list st;
                searcher := searcher st |}).

Definition error_list_append (msg : string) : M unit :=
  fun st => (Returns tt,
             {| indexed_items := indexed_items st;
                error_list := error_list st ++ [msg];
                searcher := searcher st |}).

Definition get_indexed_items : M (gset string) :=
  fun st => (Returns (indexed_items st), st).

Definition with_searcher {A} (call : SearchEngine -> outcome A * SearchEngine) : M A :=
  fun st =>
    let (r, e) := call (searcher st) in
    (r, {| indexed_items := indexed_items st;
           error_list := error_list st;
           searcher := e |}).

(** ** The walk: [index_item] *)

(** [hasattr(item, "index_dictionary")] *)
Definition is_indexable (item : Item) : bool :=
  bool_decide (is_Some (index_dictionary item)).

(** The items the walk does not ignore: indexable, or with children. *)
Definition candidate (item : Item) : bool :=
  negb (negb (is_indexable item) && negb (has_children item)).

(** Lines 67-68: the start date an item applies to itself and to its
    children. *)
Definition effective_start (item : Item) (current_start_date : option Z) : option Z :=
  match start item with
  | Some s =>
      match current_start_date with
      | None => Some s
      | Some c => if s >? c then Some s else current_start_date
      end
  | None => current_start_date
  end.

Section walk.
Variable course_key : string.
Variable triggered_at : option Z.

(** [location_info = {"course": unicode(course_key)}] *)
Definition location_info : Doc := {["course" := VStr course_key]}.

(** Lines 71-72: [skip_index or (triggered_at is not None and
    (triggered_at - item.subtree_edited_on) > REINDEX_AGE)]; the
    subtraction raises [TypeError] on an item without an edit time. *)
Definition skip_child_index (item : Item) (skip_index : bool) : outcome bool :=
  if skip_index then Returns true
  else match triggered_at with
       | None => Returns false
       | Some t =>
           match subtree_edited_on item with
           | Some edited => Returns (t - edited >? REINDEX_AGE)
           | None => Raises TypeError
           end
       end.

(** Lines 85-89: the document of an item. [update] lets the later
    dictionary win. *)
Definition build_item_index (item_id : string) (item_index_dictionary : Doc)
    (current_start_date : option Z) : Doc :=
  let item_index : Doc := ∅ in
  let item_index := location_info ∪ item_index in
  let item_index := item_index_dictionary ∪ item_index in
  let item_index := <["id" := VStr item_id]> item_index in
  match current_start_date with
  | Some t => <["start_date" := VDate t]> item_index
  | None => item_index
  end.

(** Lines 79-95: what [index_item] does with an item that is not
    skipped, after its children. *)
Definition push_item (item : Item) (item_id : string) (current_start_date : option Z) : M unit :=
  item_index_dictionary ←
    match index_dictionary item with
    | Some call => lift call
    | None => ret None
    end;
  match item_index_dictionary with
  | Some d =>
      if bool_decide (d = ∅) then ret tt
      else
        try_except
          (with_searcher (engine_index DOCUMENT_TYPE (build_item_index item_id d current_start_date)))
          (fun err => error_list_append ("Could not index item: " +:+ location item))
  | None => ret tt
  end.

Fixpoint index_item (item : Item) (current_start_date : option Z) (skip_index : bool)
    {struct item} : M unit :=
  if negb (is_indexable item) && negb (has_children item) then ret tt
  else
    let item_id := usage_id item in
    indexed_items_add item_id;;
    let current_start_date := effective_start item current_start_date in
    (if has_children item then
       skip_child ← lift (skip_child_index item skip_index);
       match get_children item with
       | Returns children =>
           for_each (fun child_item => index_item child_item current_start_date skip_child)
             children
       | Raises e => raise e
       end
     else ret tt);;
    if skip_index then ret tt
    else push_item item item_id current_start_date.
End walk.

(** ** Reconciliation: [remove_deleted_items] *)

(** [result["data"]["id"]]: a [KeyError] on a result without the field. *)
Definition result_id (data : Doc) : outcome string :=
  match doc_id data with
  | Some i => Returns i
  | None => Raises KeyError
  end.

(** The list comprehension of line 107, left to right. *)
Fixpoint result_ids_of (results : list Doc) : outcome (list string) :=
  match results with
  | [] => Returns []
  | data :: rest =>
      match result_id data with
      | Returns i =>
          match result_ids_of rest with
          | Returns ids => Returns (i :: ids)
          | Raises e => Raises e
          end
      | Raises e => Raises e
      end
  end.

Definition remove_deleted_items (course_key : string) : M unit :=
  exclude_ids ← get_indexed_items;
  response ← with_searcher (fun e =>
      (engine_search DOCUMENT_TYPE {["course" := VStr course_key]} exclude_ids e, e));
  result_ids ← lift (result_ids_of response);
  for_each (fun result_id => with_searcher (engine_remove DOCUMENT_TYPE result_id)) result_ids.

(** ** The coordinator: [index_course] *)

(** The content store, as [index_course] uses it: [get_course] returns the
    course, or [None], or raises. *)
Definition ModuleStore : Type := string -> outcome (option Item).

(** The body of the [try] of lines 112-114; [course.get_children()] on
    [None] is an [AttributeError]. *)
Definition walk_and_reconcile (course_key : string) (triggered_at : option Z)
    (course : option Item) : M unit :=
  match course with
  | None => raise AttributeError
  | Some course =>
      children ← lift (get_children course);
      for_each (fun item => index_item course_key triggered_at item (start course) false) children;;
      remove_deleted_items course_key
  end.

(** Lines 111-122: the [try] with its handler. *)
Definition guarded_pass (course_key : string) (triggered_at : option Z)
    (course : option Item) : M unit :=
  try_except (walk_and_reconcile course_key triggered_at course)
    (fun err => error_list_append "General indexing error occurred").

Definition initial_state (searcher : SearchEngine) : state :=
  {| indexed_items := ∅; error_list := []; searcher := searcher |}.

(** [index_course] returns [None] or the count, or raises; the second
    component is the search engine as the call leaves it (there is none
    when [get_search_engine] found none). *)
Definition index_course (get_search_engine : option SearchEngine) (modulestore : ModuleStore)
    (course_key : string) (raise_on_error : bool) (triggered_at : option Z)
    : outcome (option Z) * option SearchEngine :=
  let indexed_count := 0 in
  match get_search_engine with
  | None => (Returns None, None)
  | Some searcher0 =>
      match modulestore course_key with
      | Raises e => (Raises e, Some searcher0)
      | Returns course =>
          let st := (guarded_pass course_key triggered_at course (initial_state searcher0)).2 in
          if raise_on_error && negb (bool_decide (error_list st = []))
          then (Raises (SearchIndexingError "Error(s) present during indexing" (error_list st)),
                Some (searcher st))
          else (Returns (Some indexed_count), Some (searcher st))
      end
  end.

(** ** Example trees *)

Definition leaf (id : string) (s e : option Z) (dict : option (outcome (option Doc))) : Item :=
  {| usage_id := id; location := id; start := s; subtree_edited_on := e;
     has_children := false; get_children := Returns []; index_dictionary := dict |}.

Definition node (id : string) (s e : option Z) (dict : option (outcome (option Doc)))
    (children : list Item) : Item :=
  {| usage_id := id; location := id; start := s; subtree_edited_on := e;
     has_children := true; get_children := Returns children; index_dictionary := dict |}.

Definition quiet_engine (docs : gmap (string * string) Doc) : SearchEngine :=
  {| documents := docs; index_raises := fun _ => false;
     search_raises := false; remove_raises := fun _ => false |}.

Definition titled (t : string) : option (outcome (option Doc)) :=
  Some (Returns (Some {["title" := VStr t]})).

Definition scenario_A_course : Item :=
  node "course" None None None [leaf "block1" None None (titled "x")].

(** ** Relations, calls and example data used by the properties *)

(** [keeps R m]: whatever [m] does, and whether it returns or raises, the
    state it leaves is related by [R] to the state it started from. *)
Definition keeps {A} (R : relation state) (m : M A) : Prop :=
  ∀ st, R st (m st).2.

(** The unfolding of [index_item], with the loop over the children named. *)
Definition index_children (course_key : string) (triggered_at : option Z) (item : Item)
    (current_start_date : option Z) (skip_index : bool) : M unit :=
  if has_children item then
    skip_child ← lift (skip_child_index triggered_at item skip_index);
    match get_children item with
    | Returns children =>
        for_each (λ child_item,
            index_item course_key triggered_at child_item current_start_date skip_child)
          children
    | Raises e => raise e
    end
  else ret tt.

(** The accumulators only grow. *)
Definition grows : relation state :=
  λ st st', indexed_items st ⊆ indexed_items st' ∧ error_list st `prefix_of` error_list st'.

(** Neither the search engine nor the error list was touched. *)
Definition untouched : relation state :=
  λ st st', searcher st' = searcher st ∧ error_list st' = error_list st.

(** What [index_item] does after it has recorded the id. *)
Definition after_recording (course_key : string) (triggered_at : option Z) (item : Item)
    (current_start_date : option Z) (skip_index : bool) : M unit :=
  index_children course_key triggered_at item
    (effective_start item current_start_date) skip_index;;
  if skip_index then ret tt
  else push_item course_key item (usage_id item) (effective_start item current_start_date).

(** [calls triggered_at v w]: the call [v] of [index_item] reaches the loop
    of lines 73-74 and [w] is one of the calls of that loop. *)
Inductive visit : Type :=
  Visit (item : Item) (current_start_date : option Z) (skip_index : bool).

Inductive calls (triggered_at : option Z) : relation visit :=
| calls_child item c skip skip_child children child :
    candidate item = true →
    has_children item = true →
    skip_child_index triggered_at item skip = Returns skip_child →
    get_children item = Returns children →
    child ∈ children →
    calls triggered_at (Visit item c skip) (Visit child (effective_start item c) skip_child).

Definition chapter_with_fresh_child : Item :=
  node "chapter" None (Some 0) (titled "chapter")
    [leaf "fresh" None (Some 100) (titled "fresh")].

Definition stale_leaf : Item := leaf "block1" None (Some 0) (titled "x").

Definition stale_chapter : Item :=
  node "chapter" None (Some 0) (titled "chapter")
    [leaf "unit" None (Some 85) (titled "unit")].

(** The order of start dates; no date at all is below every date. *)
Definition date_le (a b : option Z) : Prop :=
  match a, b with
  | None, _ => True
  | Some x, Some y => x ≤ y
  | Some _, None => False
  end.

(** The start date a call applies to its item and hands to its children. *)
Definition visit_start (v : visit) : option Z :=
  match v with
  | Visit item c _ => effective_start item c
  end.

Definition dated_chapter : Item :=
  node "chapter" (Some 20) None None
    [leaf "early" (Some 10) None (titled "early")].

(** A stored document is an orphan of the pass when it is a courseware
    document of the course and its id is not among the indexed ids. *)
Definition orphan (course_key : string) (indexed : gset string) (doc_type id : string)
    (d : Doc) : Prop :=
  doc_type = DOCUMENT_TYPE ∧ d !! "course" = Some (VStr course_key) ∧ id ∉ indexed.

(** The loop of lines 108-109. *)
Definition remove_each (result_ids : list string) : M unit :=
  for_each (λ result_id, with_searcher (engine_remove DOCUMENT_TYPE result_id)) result_ids.

(** The ids that the search of line 102 gives for the state [st]. *)
Definition orphan_ids (course_key : string) (st : state) : list string :=
  (λ entry : string * string * Doc, entry.1.2) <$>
    List.filter (search_hit DOCUMENT_TYPE {["course" := VStr course_key]} (indexed_items st))
      (map_to_list (documents (searcher st))).

Definition engine_with_orphan : SearchEngine :=
  quiet_engine
    (<[(DOCUMENT_TYPE, "gone") := {["course" := VStr "course-v1"; "id" := VStr "gone"]}]>
       (<[(DOCUMENT_TYPE, "kept") := {["course" := VStr "course-v1"; "id" := VStr "kept"]}]> ∅)).

Definition state_after_walk : state :=
  {| indexed_items := {["kept"]}; error_list := []; searcher := engine_with_orphan |}.

Definition course_with_failing_engine : Item :=
  node "course" None None None [leaf "block1" None None (titled "x")].

Definition refusing_engine : SearchEngine :=
  {| documents := ∅; index_raises := λ _, true;
     search_raises := false; remove_raises := λ _, false |}.

Definition course_with_bad_block : Item :=
  node "course" None None None
    [leaf "bad" None None (Some (Raises (CollaboratorError "index_dictionary")));
     leaf "good" None None (titled "good")].

Definition edited_course (edited : Z) : Item :=
  node "course" None (Some edited) None [leaf "block1" None (Some edited) (titled "new")].

Definition engine_with_old_block : SearchEngine :=
  quiet_engine
    {[(DOCUMENT_TYPE, "block1") :=
        {["course" := VStr "course-v1"; "id" := VStr "block1"; "title" := VStr "old"]}]}.

(** ** The walk as a function of the tree

    What a walk without accessor failures does, read off [index_item]: the
    ids it records, and the documents it hands to [searcher.index], in the
    order of the calls (children first, the item itself last). *)

(** An item on which no accessor raises: [index_dictionary()] returns,
    [get_children()] returns items that are as well behaved, and
    [subtree_edited_on] is there when [triggered_at] asks for it. *)
Fixpoint faultless (triggered_at : option Z) (item : Item) : bool :=
  match index_dictionary item with
  | Some (Raises _) => false
  | _ => true
  end
  && (if has_children item then
        match get_children item with
        | Returns children => forallb (faultless triggered_at) children
        | Raises _ => false
        end
        && (bool_decide (triggered_at = None) || bool_decide (is_Some (subtree_edited_on item)))
      else true).

(** The ids lines 63-64 record in the subtree of an item. *)
Fixpoint walked_ids (item : Item) : gset string :=
  if candidate item then
    {[usage_id item]} ∪
    (if has_children item then
       match get_children item with
       | Returns children => ⋃ (walked_ids <$> children)
       | Raises _ => ∅
       end
     else ∅)
  else ∅.

(** One call of [searcher.index] in the walk: the item it is for and the
    document. *)
Record push : Type :=
  mkPush {
    push_location : string;
    push_id : string;
    push_doc : Doc
  }.

(** The document of an item that is not skipped, when it has one
    (lines 80-89). *)
Definition own_push (course_key : string) (item : Item) (current_start_date : option Z)
    : list push :=
  match index_dictionary item with
  | Some (Returns (Some d)) =>
      if bool_decide (d = ∅) then []
      else [mkPush (location item) (usage_id item)
              (build_item_index course_key (usage_id item) d current_start_date)]
  | _ => []
  end.

Fixpoint pushes (course_key : string) (triggered_at : option Z) (item : Item)
    (current_start_date : option Z) (skip_index : bool) {struct item} : list push :=
  if candidate item then
    let current_start_date := effective_start item current_start_date in
    (if has_children item then
       match skip_child_index triggered_at item skip_index, get_children item with
       | Returns skip_child, Returns children =>
           flat_map (λ child_item,
               pushes course_key triggered_at child_item current_start_date skip_child)
             children
       | _, _ => []
       end
     else [])
    ++ (if skip_index then [] else own_push course_key item current_start_date)
  else [].

(** What the engine holds after a list of pushes, given which documents it
    refuses, and the errors lines 92-95 record for the refused ones. *)
Definition store_push (refuses : Doc → bool) (docs : gmap (string * string) Doc) (p : push)
    : gmap (string * string) Doc :=
  if refuses (push_doc p) then docs
  else <[(DOCUMENT_TYPE, push_id p) := push_doc p]> docs.

Definition stored (refuses : Doc → bool) (ps : list push) (docs : gmap (string * string) Doc)
    : gmap (string * string) Doc :=
  foldl (store_push refuses) docs ps.

Definition refusals (refuses : Doc → bool) (ps : list push) : list string :=
  (λ p, "Could not index item: " +:+ push_location p) <$>
    List.filter (λ p, refuses (push_doc p)) ps.

(** [walk_effect ps ids st st']: [st'] is [st] after the ids [ids] were
    recorded and the pushes [ps] were made. *)
Definition walk_effect (ps : list push) (ids : gset string) (st st' : state) : Prop :=
  indexed_items st' = indexed_items st ∪ ids
  ∧ error_list st' = (error_list st ++ refusals (index_raises (searcher st)) ps)%list
  ∧ documents (searcher st') = stored (index_raises (searcher st)) ps (documents (searcher st))
  ∧ index_raises (searcher st') = index_raises (searcher st)
  ∧ search_raises (searcher st') = search_raises (searcher st)
  ∧ remove_raises (searcher st') = remove_raises (searcher st).

(** [effect m ps ids]: from every state, [m] returns and has recorded the
    ids [ids] and made the pushes [ps]. *)
Definition effect {A} (m : M A) (ps : list push) (ids : gset string) : Prop :=
  ∀ st, (∃ a, (m st).1 = Returns a) ∧ walk_effect ps ids st (m st).2.

(** What the reconciliation leaves of the documents, when it returns. *)
Definition purged (course_key : string) (indexed : gset string)
    (docs : gmap (string * string) Doc) : gmap (string * string) Doc :=
  filter (λ entry : string * string * Doc,
            search_hit DOCUMENT_TYPE {["course" := VStr course_key]} indexed entry = false)
    docs.

(** The pushes and the ids of a whole pass: the walk of the children of
    the course, from the start date of the course (lines 112-113). *)
Definition course_pushes (course_key : string) (triggered_at : option Z) (course : Item)
    : list push :=
  match get_children course with
  | Returns children =>
      flat_map (λ item, pushes course_key triggered_at item (start course) false) children
  | Raises _ => []
  end.

Definition course_ids (course : Item) : gset string :=
  match get_children course with
  | Returns children => ⋃ (walked_ids <$> children)
  | Raises _ => ∅
  end.

Definition faultless_course (triggered_at : option Z) (course : Item) : bool :=
  match get_children course with
  | Returns children => forallb (faultless triggered_at) children
  | Raises _ => false
  end.

(** An engine that answers every search and every removal (it may still
    refuse documents). *)
Definition answers (e : SearchEngine) : Prop :=
  search_raises e = false ∧ ∀ id, remove_raises e id = false.

(** The engine a pass without accessor failures leaves. *)
Definition engine_after_pass (course_key : string) (triggered_at : option Z) (course : Item)
    (e : SearchEngine) : SearchEngine :=
  with_documents e
    (purged course_key (course_ids course)
       (stored (index_raises e) (course_pushes course_key triggered_at course) (documents e))).

(** The walk only writes: what differs afterwards is a courseware document
    under a recorded id, and it is there. *)
Definition only_writes : relation state :=
  λ st st',
    grows st st'
    ∧ ∀ t i,
        documents (searcher st') !! (t, i) ≠ documents (searcher st) !! (t, i) →
        t = DOCUMENT_TYPE ∧ i ∈ indexed_items st' ∧ is_Some (documents (searcher st') !! (t, i)).

(** An item all of whose containers were edited within [REINDEX_AGE]
    before [t]. *)
Fixpoint fresh (t : Z) (item : Item) : bool :=
  if has_children item then
    match subtree_edited_on item with
    | Some edited => bool_decide (t - edited ≤ REINDEX_AGE)
    | None => false
    end
    && match get_children item with
       | Returns children => forallb (fresh t) children
       | Raises _ => true
       end
  else true.

(** ** The event tracker and [do_course_reindex] *)

(** Values of an event payload: [indexed_count] is an integer or [None]. *)
Inductive payload : Type :=
| PStr (s : string)
| PInt (n : Z)
| PNone.

(** What [tracker.emit(event_name, data)] receives. *)
Record event : Type :=
  mkEvent {
    event_name : string;
    event_data : gmap string payload
  }.

Definition count_payload (indexed_count : option Z) : payload :=
  match indexed_count with
  | Some n => PInt n
  | None => PNone
  end.

(** [if location:] holds for a string that is not empty. *)
Definition truthy (location : option string) : bool :=
  match location with
  | Some s => negb (bool_decide (s = ""))
  | None => false
  end.

(** [_track_index_request]: the tracker is the list of the events emitted
    so far. *)
Definition _track_index_request (event_name : string) (indexed_count : option Z)
    (location : option string) (tracker : list event) : list event :=
  let data : gmap string payload :=
    {["indexed_count" := count_payload indexed_count; "category" := PStr "courseware_index"]} in
  let data :=
    match location with
    | Some s => if truthy location then <["location_id" := PStr s]> data else data
    | None => data
    end in
  (tracker ++ [mkEvent event_name data])%list.

(** [do_course_reindex]: the result of [index_course] with
    [raise_on_error=True], the engine as it is left, and the tracker. *)
Definition do_course_reindex (get_search_engine : option SearchEngine) (modulestore : ModuleStore)
    (course_key : string) (triggered_at : option Z) (tracker : list event)
    : outcome (option Z) * option SearchEngine * list event :=
  match index_course get_search_engine modulestore course_key true triggered_at with
  | (Returns indexed_count, engine) =>
      (Returns indexed_count, engine,
       _track_index_request "edx.course.index.reindexed" indexed_count None tracker)
  | (Raises e, engine) => (Raises e, engine, tracker)
  end.

Definition sixty_second_chapter : Item :=
  node "chapter" None (Some 30) (titled "chapter")
    [leaf "unit" None None (titled "unit")].

(** The engine refuses and accepts as before. *)
Definition same_oracles : relation state :=
  λ st st',
    index_raises (searcher st') = index_raises (searcher st)
    ∧ search_raises (searcher st') = search_raises (searcher st)
    ∧ remove_raises (searcher st') = remove_raises (searcher st).

(** The event [do_course_reindex] emits. *)
Definition reindexed_event (indexed_count : option Z) : event :=
  mkEvent "edx.course.index.reindexed"
    {["indexed_count" := count_payload indexed_count; "category" := PStr "courseware_index"]}.

(** The ids recorded since [st] are among [ids]. *)
Definition records_within (ids : gset string) : relation state :=
  λ st st', indexed_items st' ⊆ indexed_items st ∪ ids.

(** Every document written since [st] carries a [start_date] that is not
    before [from]. *)
Definition dated_from (from : Z) : relation state :=
  λ st st',
    ∀ k doc,
      documents (searcher st') !! k = Some doc →
      documents (searcher st) !! k ≠ Some doc →
      ∃ d, doc !! "start_date" = Some (VDate d) ∧ from ≤ d.

(** * Properties *)

(** ** Induction on the course tree *)

Lemma Item_tree_ind (P : Item → Prop) :
  (∀ item,
      (∀ children, get_children item = Returns children → Forall P children) →
      P item) →
  ∀ item, P item.
Proof.
  intros step. fix IH 1. intros item. apply step.
  destruct item as [uid loc st ed hc gc dict]; simpl.
  destruct gc as [l | e]; intros children [= <-].
  induction l as [| child rest IHrest]; constructor.
  - apply IH.
  - apply IHrest.
Qed.

Section keeps.
Context (R : relation state) `{!PreOrder R}.

Lemma keeps_ret {A} (a : A) : keeps R (ret a).
Proof. intros st. simpl. reflexivity. Qed.

Lemma keeps_raise {A} (e : exn) : keeps R (@raise A e).
Proof. intros st. simpl. reflexivity. Qed.

Lemma keeps_lift {A} (o : outcome A) : keeps R (lift o).
Proof. destruct o; [apply keeps_ret | apply keeps_raise]. Qed.

Lemma keeps_bind {A B} (m : M A) (k : A → M B) :
  keeps R m → (∀ a, keeps R (k a)) → keeps R (m ≫= k).
Proof.
  intros Hm Hk st. unfold mbind, M_bind, bind.
  specialize (Hm st). destruct (m st) as [[a | e] st1]; simpl in *.
  - etransitivity; [exact Hm | apply Hk].
  - exact Hm.
Qed.

Lemma keeps_bind_lift {A B} (o : outcome A) (k : A → M B) :
  (∀ a, o = Returns a → keeps R (k a)) → keeps R (lift o ≫= k).
Proof.
  intros Hk. destruct o as [a | e].
  - intros st. apply (Hk a eq_refl).
  - apply keeps_raise.
Qed.

Lemma keeps_try_except {A} (body : M A) (handler : exn → M A) :
  keeps R body → (∀ e, keeps R (handler e)) → keeps R (try_except body handler).
Proof.
  intros Hm Hk st. unfold try_except.
  specialize (Hm st). destruct (body st) as [[a | e] st1]; simpl in *.
  - exact Hm.
  - etransitivity; [exact Hm | apply Hk].
Qed.

Lemma keeps_for_each {A} (body : A → M unit) (l : list A) :
  Forall (λ x, keeps R (body x)) l → keeps R (for_each body l).
Proof.
  induction 1 as [| x l Hx Hl IH]; simpl.
  - apply keeps_ret.
  - apply keeps_bind; [exact Hx | intros _; exact IH].
Qed.
End keeps.

Lemma index_item_unfold course_key triggered_at item current_start_date skip_index :
  index_item course_key triggered_at item current_start_date skip_index =
  if candidate item then
    indexed_items_add (usage_id item);;
    index_children course_key triggered_at item
      (effective_start item current_start_date) skip_index;;
    if skip_index then ret tt
    else push_item course_key item (usage_id item) (effective_start item current_start_date)
  else ret tt.
Proof.
  destruct item as [uid loc st ed hc gc dict]. unfold candidate. simpl.
  destruct (negb _ && negb hc); reflexivity.
Qed.

(** The walk keeps every relation that adding an id keeps and that, where
    the item is not skipped, pushing a document keeps. *)
Lemma index_item_keeps (R : relation state) `{!PreOrder R} course_key triggered_at :
  (∀ id, keeps R (indexed_items_add id)) →
  ∀ item current_start_date skip_index,
    (skip_index = true ∨ ∀ item' id c, keeps R (push_item course_key item' id c)) →
    keeps R (index_item course_key triggered_at item current_start_date skip_index).
Proof.
  intros Hadd item. induction item as [item IH] using Item_tree_ind.
  intros c skip Hpush. rewrite index_item_unfold.
  destruct (candidate item); [| by apply (keeps_ret R)].
  apply (keeps_bind R); [apply Hadd | intros _].
  apply (keeps_bind R).
  - unfold index_children. destruct (has_children item); [| by apply (keeps_ret R)].
    apply (keeps_bind_lift R). intros skip_child Hskip.
    destruct (get_children item) as [children | e] eqn:Hch; [| by apply (keeps_raise R)].
    apply (keeps_for_each R).
    specialize (IH children eq_refl).
    eapply Forall_impl; [exact IH |]. intros child Hchild. simpl. apply Hchild.
    destruct Hpush as [-> | Hpush]; [left | by right].
    simpl in Hskip. by injection Hskip.
  - intros _. destruct skip; [by apply (keeps_ret R) |].
    destruct Hpush as [? | Hpush]; [done | apply Hpush].
Qed.

(** ** Two relations the walk keeps *)

#[global] Instance grows_preorder : PreOrder grows.
Proof.
  split.
  - intros st. split; reflexivity.
  - intros st1 st2 st3 [? ?] [? ?]. split; etransitivity; eassumption.
Qed.

#[global] Instance untouched_preorder : PreOrder untouched.
Proof.
  split.
  - intros st. split; reflexivity.
  - intros st1 st2 st3 [? ?] [? ?]. split; congruence.
Qed.

Lemma indexed_items_add_grows id : keeps grows (indexed_items_add id).
Proof. intros st. split; simpl; [set_solver | reflexivity]. Qed.

Lemma indexed_items_add_untouched id : keeps untouched (indexed_items_add id).
Proof. intros st. split; reflexivity. Qed.

Lemma error_list_append_grows msg : keeps grows (error_list_append msg).
Proof. intros st. split; simpl; [reflexivity | by apply prefix_app_r]. Qed.

Lemma with_searcher_grows {A} (call : SearchEngine → outcome A * SearchEngine) :
  keeps grows (with_searcher call).
Proof. intros st. unfold with_searcher. destruct (call _). split; reflexivity. Qed.

Lemma push_item_grows course_key item id c : keeps grows (push_item course_key item id c).
Proof.
  unfold push_item. apply (keeps_bind grows).
  - destruct (index_dictionary item); [apply (keeps_lift grows) | apply (keeps_ret grows)].
  - intros [d |]; [| apply (keeps_ret grows)].
    case_bool_decide; [apply (keeps_ret grows) |].
    apply (keeps_try_except grows); [apply with_searcher_grows |].
    intros _. apply error_list_append_grows.
Qed.

Lemma index_item_grows course_key triggered_at item c skip :
  keeps grows (index_item course_key triggered_at item c skip).
Proof.
  apply (index_item_keeps grows); [apply indexed_items_add_grows |].
  right. intros. apply push_item_grows.
Qed.

Lemma index_item_skip_untouched course_key triggered_at item c :
  keeps untouched (index_item course_key triggered_at item c true).
Proof.
  apply (index_item_keeps untouched); [apply indexed_items_add_untouched | by left].
Qed.

Lemma index_children_grows course_key triggered_at item c skip :
  keeps grows (index_children course_key triggered_at item c skip).
Proof.
  unfold index_children. destruct (has_children item); [| apply (keeps_ret grows)].
  apply (keeps_bind grows); [apply (keeps_lift grows) | intros skip_child].
  destruct (get_children item); [| apply (keeps_raise grows)].
  apply (keeps_for_each grows). apply Forall_forall. intros. apply index_item_grows.
Qed.

(** ** The id set and the pruning (claim C2) *)

Lemma candidate_spec item : candidate item = is_indexable item || has_children item.
Proof. unfold candidate. by destruct (is_indexable item), (has_children item). Qed.

(** C2. An item that is indexable or has children has its id in the
    indexed-id set from before the walk of its children and before the
    skip flag is looked at: the children and the skip test run from a state
    that holds the id already, and the id is in the set the call leaves,
    whatever the skip flag and whether the call returns or raises. An item
    that is neither indexable nor has children is ignored at once: the call
    returns and leaves the state (id set, engine, error list) as it was,
    whatever [get_children] would have given. *)
Theorem index_item_records_before_children_or_prunes
    course_key triggered_at item current_start_date skip_index st :
  if is_indexable item || has_children item then
    (∃ st1,
        indexed_items st1 = {[usage_id item]} ∪ indexed_items st
        ∧ error_list st1 = error_list st
        ∧ searcher st1 = searcher st
        ∧ index_item course_key triggered_at item current_start_date skip_index st
          = after_recording course_key triggered_at item current_start_date skip_index st1)
    ∧ usage_id item
        ∈ indexed_items
            (index_item course_key triggered_at item current_start_date skip_index st).2
  else
    index_item course_key triggered_at item current_start_date skip_index st = (Returns tt, st).
Proof.
  rewrite index_item_unfold, <- candidate_spec.
  destruct (candidate item); [| reflexivity].
  split.
  - eexists (mkState _ _ _). repeat split; reflexivity.
  - change (usage_id item ∈ indexed_items
              ((after_recording course_key triggered_at item current_start_date skip_index)
                 (indexed_items_add (usage_id item) st).2).2).
    assert (keeps grows
              (after_recording course_key triggered_at item current_start_date skip_index))
      as Hrest.
    { unfold after_recording. apply (keeps_bind grows); [apply index_children_grows |].
      intros _. destruct skip_index; [apply (keeps_ret grows) | apply push_item_grows]. }
    destruct (Hrest (indexed_items_add (usage_id item) st).2) as [Hsub _].
    apply Hsub. simpl. set_solver.
Qed.

(** The loop of a call is made of the calls [calls] names. *)
Lemma index_children_calls course_key triggered_at item c skip skip_child children :
  has_children item = true →
  skip_child_index triggered_at item skip = Returns skip_child →
  get_children item = Returns children →
  index_children course_key triggered_at item (effective_start item c) skip =
  for_each (λ child, index_item course_key triggered_at child (effective_start item c) skip_child)
    children.
Proof.
  intros Hc Hs Hg. unfold index_children. rewrite Hc, Hs, Hg. reflexivity.
Qed.

Lemma calls_skip_inherited triggered_at item c d c' s' :
  calls triggered_at (Visit item c true) (Visit d c' s') → s' = true.
Proof.
  inversion 1 as [? ? ? ? ? ? _ _ Hskip]; subst. simpl in Hskip. by injection Hskip.
Qed.

Lemma rtc_calls_skip_inherited triggered_at v w :
  rtc (calls triggered_at) v w →
  ∀ item c, v = Visit item c true → ∃ d c', w = Visit d c' true.
Proof.
  induction 1 as [v | v u w Hstep _ IH]; intros item c ->.
  - by exists item, c.
  - destruct u as [d c' s']. apply calls_skip_inherited in Hstep as ->.
    by apply (IH d c').
Qed.

(** ** Skipping is inherited (claim C6) *)

(** C6. Every call of the walk that descends from a call with the skip
    flag set has the skip flag set as well, and leaves the search engine
    and the error list as they were: no document is built or pushed for the
    descendant. The tree is arbitrary, so this holds whatever the
    [subtree_edited_on] of the descendant is. *)
Theorem skip_index_monotone_downward course_key triggered_at item c d c' s' :
  rtc (calls triggered_at) (Visit item c true) (Visit d c' s') →
  s' = true
  ∧ ∀ st, untouched st (index_item course_key triggered_at d c' s' st).2.
Proof.
  intros Hpath.
  destruct (rtc_calls_skip_inherited _ _ _ Hpath item c eq_refl) as (d0 & c0 & [= <- <- ->]).
  split; [reflexivity |]. intros st. apply index_item_skip_untouched.
Qed.

Lemma skip_index_monotone_downward_witness :
  untouched (initial_state (quiet_engine ∅))
    (index_item "course-v1" (Some 100) (leaf "fresh" None (Some 100) (titled "fresh"))
       None true (initial_state (quiet_engine ∅))).2.
Proof.
  refine (proj2 (skip_index_monotone_downward "course-v1" (Some 100)
                   chapter_with_fresh_child None _ None true _) _).
  apply rtc_once.
  refine (calls_child (Some 100) chapter_with_fresh_child None true true _ _ _ _ _ _ _).
  - reflexivity.
  - reflexivity.
  - reflexivity.
  - reflexivity.
  - apply list_elem_of_here.
Defined.

(** ** Staleness (claim C3) *)

Lemma index_item_records course_key triggered_at item c skip st :
  candidate item = true →
  usage_id item ∈ indexed_items (index_item course_key triggered_at item c skip st).2.
Proof.
  intros Hcand. rewrite index_item_unfold, Hcand.
  assert (keeps grows (after_recording course_key triggered_at item c skip)) as Hrest.
  { unfold after_recording. apply (keeps_bind grows); [apply index_children_grows |].
    intros _. destruct skip; [apply (keeps_ret grows) | apply push_item_grows]. }
  destruct (Hrest (indexed_items_add (usage_id item) st).2) as [Hsub _].
  apply Hsub. simpl. set_solver.
Qed.

Lemma stale_skip_child_index t item skip edited :
  subtree_edited_on item = Some edited →
  t - edited > REINDEX_AGE →
  skip_child_index (Some t) item skip = Returns true.
Proof.
  intros Hed Hstale. unfold skip_child_index. rewrite Hed.
  destruct skip; [reflexivity |]. f_equal. apply Z.gtb_lt. lia.
Qed.

(** The claim C3 as it is written fails on the item itself: a stale item,
    visited with [triggered_at] given and no skip inherited, has its
    document pushed. *)
Lemma stale_item_itself_is_indexed :
  ¬ (∀ course_key t item c skip st edited,
        subtree_edited_on item = Some edited →
        t - edited > REINDEX_AGE →
        searcher (index_item course_key (Some t) item c skip st).2 = searcher st).
Proof.
  intros Hclaim.
  specialize (Hclaim "course-v1" 90 stale_leaf None false (initial_state (quiet_engine ∅)) 0
                eq_refl eq_refl).
  apply (f_equal (λ e, documents e !! (DOCUMENT_TYPE, "block1"))) in Hclaim.
  vm_compute in Hclaim. discriminate Hclaim.
Qed.

(** ** The effective start date (claim C7) *)

#[global] Instance date_le_preorder : PreOrder date_le.
Proof.
  split.
  - intros [x |]; simpl; [lia | done].
  - intros [x |] [y |] [z |]; simpl; try done; lia.
Qed.

Lemma effective_start_max item c :
  effective_start item c =
  match start item, c with
  | Some s, Some inherited => Some (Z.max inherited s)
  | Some s, None => Some s
  | None, _ => c
  end.
Proof.
  unfold effective_start. destruct (start item) as [s |], c as [c0 |]; try reflexivity.
  destruct (Z.gtb_spec s c0); f_equal; lia.
Qed.

Lemma effective_start_above item c : date_le c (effective_start item c).
Proof.
  rewrite effective_start_max.
  destruct (start item) as [s |], c as [c0 |]; simpl; try done; lia.
Qed.

Lemma calls_visit_start triggered_at v w :
  calls triggered_at v w → date_le (visit_start v) (visit_start w).
Proof. destruct 1. simpl. apply effective_start_above. Qed.

(** ** Reconciliation (claim C1) *)

Lemma doc_id_stored_data id d : doc_id (stored_data id d) = Some id.
Proof. unfold doc_id, stored_data. by rewrite lookup_insert_eq. Qed.

Lemma stored_data_course id d : stored_data id d !! "course" = d !! "course".
Proof. unfold stored_data. by rewrite lookup_insert_ne. Qed.

Lemma result_ids_of_stored (entries : list (string * string * Doc)) :
  result_ids_of ((λ entry, stored_data entry.1.2 entry.2) <$> entries)
  = Returns ((λ entry, entry.1.2) <$> entries).
Proof.
  induction entries as [| entry rest IH]; [reflexivity |].
  rewrite !fmap_cons. cbn [result_ids_of]. unfold result_id.
  rewrite doc_id_stored_data, IH. reflexivity.
Qed.

Lemma search_hit_orphan course_key indexed doc_type id d :
  search_hit DOCUMENT_TYPE {["course" := VStr course_key]} indexed (doc_type, id, d) = true
  ↔ orphan course_key indexed doc_type id d.
Proof.
  unfold search_hit, orphan, matches_fields. simpl.
  rewrite !andb_true_iff, negb_true_iff, bool_decide_eq_false, !bool_decide_eq_true.
  rewrite map_Forall_singleton, stored_data_course. tauto.
Qed.

Lemma bind_run {A B} (m : M A) (k : A → M B) st :
  (m ≫= k) st =
  match m st with
  | (Returns a, st') => k a st'
  | (Raises e, st') => (Raises e, st')
  end.
Proof. reflexivity. Qed.

Lemma with_searcher_remove_run id st :
  with_searcher (engine_remove DOCUMENT_TYPE id) st =
  if remove_raises (searcher st) id
  then (Raises (CollaboratorError "remove"),
        {| indexed_items := indexed_items st; error_list := error_list st;
           searcher := searcher st |})
  else (Returns tt,
        {| indexed_items := indexed_items st; error_list := error_list st;
           searcher := with_documents (searcher st)
                         (delete (DOCUMENT_TYPE, id) (documents (searcher st))) |}).
Proof.
  unfold with_searcher, engine_remove. by destruct (remove_raises (searcher st) id).
Qed.

Lemma remove_each_spec result_ids st :
  let res := remove_each result_ids st in
  indexed_items res.2 = indexed_items st
  ∧ error_list res.2 = error_list st
  ∧ remove_raises (searcher res.2) = remove_raises (searcher st)
  ∧ (∀ k, documents (searcher res.2) !! k = None
          ∨ documents (searcher res.2) !! k = documents (searcher st) !! k)
  ∧ (∀ t i, t ≠ DOCUMENT_TYPE ∨ i ∉ result_ids →
            documents (searcher res.2) !! (t, i) = documents (searcher st) !! (t, i))
  ∧ (res.1 = Returns tt →
     ∀ i, i ∈ result_ids → documents (searcher res.2) !! (DOCUMENT_TYPE, i) = None)
  ∧ ((∀ i, i ∈ result_ids → remove_raises (searcher st) i = false) → res.1 = Returns tt).
Proof.
  revert st. induction result_ids as [| id rest IH]; intros st; cbv zeta.
  - simpl. split_and!; try done.
    + intros k. by right.
    + intros _ i Hi. by apply elem_of_nil in Hi.
  - unfold remove_each. cbn [for_each]. rewrite bind_run, with_searcher_remove_run.
    destruct (remove_raises (searcher st) id) eqn:Hraise.
    + simpl. split_and!; try done.
      * intros k. by right.
      * intros Hquiet. rewrite Hquiet in Hraise; [done | apply list_elem_of_here].
    + set (st1 := {| indexed_items := indexed_items st; error_list := error_list st;
                     searcher := with_documents (searcher st)
                                   (delete (DOCUMENT_TYPE, id) (documents (searcher st))) |}).
      destruct (IH st1) as (Hi & He & Hr & Honly & Hkeep & Hgone & Hret).
      fold (remove_each rest). split_and!.
      * exact Hi.
      * exact He.
      * exact Hr.
      * intros k. destruct (Honly k) as [-> | ->]; [by left |]. simpl.
        destruct (decide (k = (DOCUMENT_TYPE, id))) as [-> | Hne].
        -- left. apply lookup_delete_eq.
        -- right. by apply lookup_delete_ne.
      * intros t i Hti. rewrite Hkeep.
        -- simpl. apply lookup_delete_ne. intros [= <- <-].
           destruct Hti as [? | Hni]; [done | apply Hni, list_elem_of_here].
        -- destruct Hti as [? | Hni]; [by left | right].
           intros Hin. apply Hni. by apply list_elem_of_further.
      * intros Hok i Hin. destruct (decide (i ∈ rest)) as [Hrest | Hrest].
        -- by apply Hgone.
        -- rewrite Hkeep; [| by right]. simpl.
           apply elem_of_cons in Hin as [-> | ?]; [apply lookup_delete_eq | done].
      * intros Hquiet. apply Hret. intros i Hin. simpl.
        apply Hquiet. by apply list_elem_of_further.
Qed.

Lemma elem_of_orphan_ids course_key st i :
  i ∈ orphan_ids course_key st
  ↔ ∃ d, documents (searcher st) !! (DOCUMENT_TYPE, i) = Some d
         ∧ orphan course_key (indexed_items st) DOCUMENT_TYPE i d.
Proof.
  unfold orphan_ids. rewrite list_elem_of_fmap. split.
  - intros ([[t j] d] & -> & Hin). simpl.
    apply list_elem_of_In, filter_In in Hin as [Hin Hhit].
    apply list_elem_of_In, elem_of_map_to_list in Hin.
    apply search_hit_orphan in Hhit. pose proof Hhit as [-> _]. by exists d.
  - intros (d & Hd & Horphan). exists (DOCUMENT_TYPE, i, d). split; [done |].
    apply list_elem_of_In, filter_In. split.
    + by apply list_elem_of_In, elem_of_map_to_list.
    + by apply search_hit_orphan.
Qed.

Lemma remove_deleted_items_run course_key st :
  remove_deleted_items course_key st =
  if search_raises (searcher st)
  then (Raises (CollaboratorError "search"),
        {| indexed_items := indexed_items st; error_list := error_list st;
           searcher := searcher st |})
  else remove_each (orphan_ids course_key st)
         {| indexed_items := indexed_items st; error_list := error_list st;
            searcher := searcher st |}.
Proof.
  unfold remove_deleted_items. rewrite bind_run. cbn [get_indexed_items].
  rewrite bind_run. unfold with_searcher, engine_search.
  destruct (search_raises (searcher st)); [reflexivity |].
  rewrite bind_run, result_ids_of_stored. reflexivity.
Qed.

(** C1. The reconciliation step, run from any state of a pass (so with
    any indexed-id set the walk produced), leaves the id set alone and
    only deletes: a document it leaves was there before, unchanged. It
    never deletes a document whose id is in the indexed-id set, whether a
    document was pushed for that id or not, nor a document of another
    course or type. When it returns, every courseware document whose
    [course] field is the course key and whose id is not in the set is
    gone; and it returns whenever the engine answers the search and the
    removals. *)
Theorem reconciliation_deletes_exactly_orphans course_key st :
  let res := remove_deleted_items course_key st in
  let docs := documents (searcher st) in
  let docs' := documents (searcher res.2) in
  indexed_items res.2 = indexed_items st
  ∧ (∀ t i, i ∈ indexed_items st → docs' !! (t, i) = docs !! (t, i))
  ∧ (∀ t i d, docs' !! (t, i) = Some d → docs !! (t, i) = Some d)
  ∧ (∀ t i d, docs !! (t, i) = Some d →
              ¬ orphan course_key (indexed_items st) t i d →
              docs' !! (t, i) = Some d)
  ∧ (res.1 = Returns tt →
     ∀ t i d, docs !! (t, i) = Some d →
              orphan course_key (indexed_items st) t i d →
              docs' !! (t, i) = None)
  ∧ (search_raises (searcher st) = false →
     (∀ i, remove_raises (searcher st) i = false) →
     res.1 = Returns tt).
Proof.
  cbv zeta. rewrite remove_deleted_items_run.
  destruct (search_raises (searcher st)) eqn:Hsearch.
  { simpl. split_and!; try done. }
  pose proof (remove_each_spec (orphan_ids course_key st)
                {| indexed_items := indexed_items st; error_list := error_list st;
                   searcher := searcher st |}) as Hspec.
  cbv zeta in Hspec. simpl in Hspec.
  destruct Hspec as (Hi & He & Hr & Honly & Hkeep & Hgone & Hret).
  assert (∀ t i d, documents (searcher st) !! (t, i) = Some d →
                   ¬ orphan course_key (indexed_items st) t i d →
                   t ≠ DOCUMENT_TYPE ∨ i ∉ orphan_ids course_key st) as Hnot.
  { intros t i d Hd Hno. destruct (decide (t = DOCUMENT_TYPE)) as [-> | ?]; [right | by left].
    intros (d' & Hd' & Horphan)%elem_of_orphan_ids. by simplify_eq. }
  split_and!.
  - exact Hi.
  - intros t i Hin.
    destruct (documents (searcher st) !! (t, i)) as [d |] eqn:Hd.
    + rewrite Hkeep; [done |]. apply (Hnot t i d Hd). intros (_ & _ & Hni). done.
    + destruct (Honly (t, i)) as [-> | ->]; done.
  - intros t i d Hd'. destruct (Honly (t, i)) as [Hnone | Hsame]; congruence.
  - intros t i d Hd Hno. rewrite Hkeep; [done |]. by apply (Hnot t i d).
  - intros Hdone t i d Hd Horphan. pose proof Horphan as [-> _].
    apply Hgone; [done |]. apply elem_of_orphan_ids. by exists d.
  - intros _ Hquiet. apply Hret. intros i _. apply Hquiet.
Qed.

Lemma reconciliation_deletes_exactly_orphans_witness :
  (remove_deleted_items "course-v1" state_after_walk).1 = Returns tt
  ∧ documents (searcher (remove_deleted_items "course-v1" state_after_walk).2)
      !! (DOCUMENT_TYPE, "gone") = None
  ∧ documents (searcher (remove_deleted_items "course-v1" state_after_walk).2)
      !! (DOCUMENT_TYPE, "kept")
    = documents engine_with_orphan !! (DOCUMENT_TYPE, "kept").
Proof.
  destruct (reconciliation_deletes_exactly_orphans "course-v1" state_after_walk)
    as (_ & Hin & _ & _ & Hgone & Hret).
  assert ((remove_deleted_items "course-v1" state_after_walk).1 = Returns tt) as Hdone.
  { apply Hret; [reflexivity | intros i; reflexivity]. }
  split_and!.
  - exact Hdone.
  - apply (Hgone Hdone DOCUMENT_TYPE "gone" {["course" := VStr "course-v1"; "id" := VStr "gone"]}).
    + vm_compute. reflexivity.
    + split_and!; [reflexivity | vm_compute; reflexivity |].
      simpl. by apply not_elem_of_singleton.
  - apply Hin. simpl. by apply elem_of_singleton.
Defined.

(** ** The coordinator (claims C4, C8, C9, C10) *)

(** C10. Without a search engine [index_course] returns [None] (not a
    count) and raises nothing, whatever [raise_on_error] is; the content
    store is not looked at (the result is the same for every store, also
    one whose [get_course] raises) and there is no engine to act on. *)
Theorem index_course_without_engine_returns_None
    (modulestore : ModuleStore) course_key raise_on_error triggered_at :
  index_course None modulestore course_key raise_on_error triggered_at = (Returns None, None).
Proof. reflexivity. Qed.

(** C4 fails on the code: [get_course] is called at line 54, before the
    [try] of line 111, so what it raises leaves [index_course] as it is,
    whatever [raise_on_error] says; nothing is recorded and the engine is
    as it was. *)
Theorem get_course_failure_escapes_index_course
    searcher0 course_key raise_on_error triggered_at err :
  index_course (Some searcher0) (λ _, Raises err) course_key raise_on_error triggered_at
  = (Raises err, Some searcher0).
Proof. reflexivity. Qed.

(** The neighbouring accesses to the tree are inside the [try]: a failing
    [course.get_children()], or a course that is [None], is recorded as
    the one general error. *)
Lemma guarded_pass_catches course_key triggered_at course st e st1 :
  walk_and_reconcile course_key triggered_at course st = (Raises e, st1) →
  guarded_pass course_key triggered_at course st
  = (Returns tt,
     {| indexed_items := indexed_items st1;
        error_list := (error_list st1 ++ ["General indexing error occurred"])%list;
        searcher := searcher st1 |}).
Proof. intros Hwalk. unfold guarded_pass, try_except. by rewrite Hwalk. Qed.

Lemma guarded_pass_returns course_key triggered_at course st :
  (guarded_pass course_key triggered_at course st).1 = Returns tt.
Proof.
  unfold guarded_pass, try_except.
  by destruct (walk_and_reconcile _ _ _ _) as [[[] | e] st1].
Qed.

Lemma guarded_pass_state course_key triggered_at course st :
  let walk := walk_and_reconcile course_key triggered_at course st in
  let st' := (guarded_pass course_key triggered_at course st).2 in
  searcher st' = searcher walk.2
  ∧ indexed_items st' = indexed_items walk.2
  ∧ error_list st' =
      (error_list walk.2 ++
       match walk.1 with
       | Returns _ => []
       | Raises _ => ["General indexing error occurred"]
       end)%list.
Proof.
  cbv zeta. unfold guarded_pass, try_except.
  destruct (walk_and_reconcile _ _ _ _) as [[[] | e] st1]; simpl; [| done].
  by rewrite app_nil_r.
Qed.

(** The claim C8 as it is written fails without a search engine: the call
    neither raises the aggregated error nor returns a count. *)
Lemma index_course_neither_raises_nor_counts :
  ¬ (∀ get_search_engine (modulestore : ModuleStore) course_key raise_on_error triggered_at,
        (∃ message errors engine,
            index_course get_search_engine modulestore course_key raise_on_error triggered_at
            = (Raises (SearchIndexingError message errors), engine))
        ∨ (∃ (count : Z) engine,
              index_course get_search_engine modulestore course_key raise_on_error triggered_at
              = (Returns (Some count), engine))).
Proof.
  intros Hclaim.
  destruct (Hclaim None (λ _, Returns None) "course-v1" true None)
    as [(message & errors & engine & Hrun) | (count & engine & Hrun)];
    discriminate Hrun.
Qed.

(** C8, amended. With a search engine and a [get_course] that returns,
    [index_course] raises [SearchIndexingError] exactly when
    [raise_on_error] is set and the error list is not empty, and raises
    nothing else; the error carries the whole error list, which is the list
    the walk and the reconciliation left, in order, followed by the general
    error when they were cut short; the engine is then as the walk and the
    reconciliation left it; in every other case the count is returned.
    Without a search engine [None] is returned. *)
Theorem index_course_raises_iff_errors
    searcher0 (modulestore : ModuleStore) course_key raise_on_error triggered_at course :
  modulestore course_key = Returns course →
  let walk := walk_and_reconcile course_key triggered_at course (initial_state searcher0) in
  let errors :=
    (error_list walk.2 ++
     match walk.1 with
     | Returns _ => []
     | Raises _ => ["General indexing error occurred"]
     end)%list in
  let run := index_course (Some searcher0) modulestore course_key raise_on_error triggered_at in
  ((∃ message error_list, run.1 = Raises (SearchIndexingError message error_list))
   ↔ raise_on_error = true ∧ errors ≠ [])
  ∧ (∀ e, run.1 = Raises e →
          e = SearchIndexingError "Error(s) present during indexing" errors)
  ∧ (¬ (raise_on_error = true ∧ errors ≠ []) → run.1 = Returns (Some 0))
  ∧ run.2 = Some (searcher walk.2)
  ∧ index_course None modulestore course_key raise_on_error triggered_at = (Returns None, None).
Proof.
  intros Hcourse. cbv zeta. unfold index_course. rewrite Hcourse.
  destruct (guarded_pass_state course_key triggered_at course (initial_state searcher0))
    as (Hs & _ & He).
  rewrite <- He, <- Hs.
  set (st := (guarded_pass course_key triggered_at course (initial_state searcher0)).2).
  destruct raise_on_error; simpl.
  - case_bool_decide as Hempty; simpl.
    + split_and!; try done.
      split; [by intros (? & ? & ?) | by intros [_ ?]].
    + split_and!; try done.
      * split; [done | intros _; by eexists _, _].
      * by intros e [= <-].
      * tauto.
  - destruct (bool_decide (error_list st = [])); simpl.
    all: split_and!; try done.
    all: split; [by intros (? & ? & ?) | by intros [? _]].
Qed.

Lemma index_course_raises_iff_errors_witness :
  ∃ message error_list,
    (index_course (Some refusing_engine) (λ _, Returns (Some course_with_failing_engine))
       "course-v1" true None).1
    = Raises (SearchIndexingError message error_list).
Proof.
  refine (proj2 (proj1 (index_course_raises_iff_errors refusing_engine
                          (λ _, Returns (Some course_with_failing_engine))
                          "course-v1" true None (Some course_with_failing_engine) _)) _).
  - reflexivity.
  - split; [reflexivity | vm_compute; discriminate].
Defined.

(** C9. With a search engine, whenever [index_course] returns, it returns
    the count as it was initialised, 0: nothing adds to it when a document
    is pushed. So it is for the tree of Scenario A (one indexable block
    with [{title: "x"}], empty index before): the pass pushes exactly one
    document, with the fields [course], [id] and [title], and returns 0. *)
Theorem indexed_count_is_never_incremented
    searcher0 (modulestore : ModuleStore) course_key raise_on_error triggered_at result engine :
  (index_course (Some searcher0) modulestore course_key raise_on_error triggered_at
   = (Returns result, engine) →
   result = Some 0)
  ∧ index_course (Some (quiet_engine ∅)) (λ _, Returns (Some scenario_A_course))
      "course-v1" raise_on_error None
    = (Returns (Some 0),
       Some (quiet_engine
               {[(DOCUMENT_TYPE, "block1") :=
                   {["course" := VStr "course-v1"; "id" := VStr "block1";
                     "title" := VStr "x"]}]})).
Proof.
  split.
  - unfold index_course. destruct (modulestore course_key) as [course | e]; [| done].
    destruct (raise_on_error && _); [done |]. by intros [= <- _].
  - destruct raise_on_error; vm_compute; reflexivity.
Qed.

Lemma indexed_count_is_never_incremented_witness :
  Some 0 = Some 0.
Proof.
  refine (proj1 (indexed_count_is_never_incremented (quiet_engine ∅)
                   (λ _, Returns (Some scenario_A_course)) "course-v1" false None
                   (Some 0) _) _).
  vm_compute. reflexivity.
Defined.

(** ** Failures of one item (claim C5) *)

(** A failure of [searcher.index] is caught at line 92: the call of
    [index_item] goes on as if the document had been sent, with one more
    entry in the error list, which names the item. *)
Lemma push_item_send_failure course_key item id c st d :
  index_dictionary item = Some (Returns (Some d)) →
  d ≠ ∅ →
  index_raises (searcher st) (build_item_index course_key id d c) = true →
  push_item course_key item id c st
  = (Returns tt,
     {| indexed_items := indexed_items st;
        error_list := (error_list st ++ ["Could not index item: " +:+ location item])%list;
        searcher := searcher st |}).
Proof.
  intros Hdict Hd Hraise. unfold push_item. rewrite Hdict, bind_run. simpl.
  rewrite bool_decide_eq_false_2 by done.
  unfold try_except, with_searcher, engine_index.
  assert (doc_id (build_item_index course_key id d c) = Some id) as ->.
  { unfold doc_id, build_item_index. destruct c.
    - by rewrite lookup_insert_ne, lookup_insert_eq.
    - by rewrite lookup_insert_eq. }
  rewrite Hraise. reflexivity.
Qed.

(** A failure of [index_dictionary()] itself, at line 80, is outside that
    [try]: it leaves [index_item], and the loop over the siblings with it. *)
Lemma push_item_build_failure course_key item id c st e :
  index_dictionary item = Some (Raises e) →
  push_item course_key item id c st = (Raises e, st).
Proof. intros Hdict. unfold push_item. by rewrite Hdict. Qed.

Lemma for_each_aborts {A} (body : A → M unit) x rest st e st' :
  body x st = (Raises e, st') →
  for_each body (x :: rest) st = (Raises e, st').
Proof. intros Hx. cbn [for_each]. by rewrite bind_run, Hx. Qed.

(** C5 fails on the code. In a course of two blocks whose first block
    has an [index_dictionary()] that raises, the walk stops at that block:
    the second block gets no document and its id is not recorded, the
    reconciliation does not run (the orphan in the engine stays), and the
    one error recorded is the general one, which does not name the block. *)
Theorem index_dictionary_failure_aborts_walk :
  let walk :=
    walk_and_reconcile "course-v1" None (Some course_with_bad_block)
      (initial_state engine_with_orphan) in
  let run :=
    index_course (Some engine_with_orphan) (λ _, Returns (Some course_with_bad_block))
      "course-v1" true None in
  walk.1 = Raises (CollaboratorError "index_dictionary")
  ∧ ("good" ∉ indexed_items walk.2)
  ∧ documents (searcher walk.2) = documents engine_with_orphan
  ∧ run.1 = Raises (SearchIndexingError "Error(s) present during indexing"
                      ["General indexing error occurred"])
  ∧ run.2 = Some engine_with_orphan.
Proof.
  cbv zeta. split_and!.
  - vm_compute. reflexivity.
  - vm_compute. intros H. discriminate H.
  - vm_compute. reflexivity.
  - vm_compute. reflexivity.
  - vm_compute. reflexivity.
Qed.

(** ** The calls and the run of the walk *)

Lemma for_each_returns_elem {A} (body : A → M unit) l x st st' :
  (∀ y, keeps grows (body y)) →
  for_each body l st = (Returns tt, st') →
  x ∈ l →
  ∃ sa sb, body x sa = (Returns tt, sb) ∧ grows sb st'.
Proof.
  intros Hbody. revert st. induction l as [| y l IH]; intros st Hrun Hin.
  - by apply elem_of_nil in Hin.
  - cbn [for_each] in Hrun. rewrite bind_run in Hrun.
    destruct (body y st) as [[[] | e] st1] eqn:Hy; [| discriminate Hrun].
    apply elem_of_cons in Hin as [-> | Hin].
    + exists st, st1. split; [exact Hy |].
      pose proof (keeps_for_each grows body l) as Hrest.
      specialize (Hrest ltac:(apply Forall_forall; intros; apply Hbody) st1).
      by rewrite Hrun in Hrest.
    + by apply (IH st1).
Qed.

(** When a call of the walk returns, the id of every item that is indexable
    or has children and is reached by a call below it is in the indexed-id
    set, skipped or not. *)
Lemma walk_records_descendants course_key triggered_at v w :
  rtc (calls triggered_at) v w →
  ∀ item c skip st st' d c' s',
    v = Visit item c skip →
    w = Visit d c' s' →
    index_item course_key triggered_at item c skip st = (Returns tt, st') →
    candidate d = true →
    usage_id d ∈ indexed_items st'.
Proof.
  induction 1 as [v | v u w Hstep _ IH]; intros item c skip st st' d c' s' -> Hw Hrun Hcand.
  - injection Hw as <- <- <-.
    pose proof (index_item_records course_key triggered_at item c skip st Hcand) as Hin.
    by rewrite Hrun in Hin.
  - subst w. inversion Hstep as [? ? ? skip_child children child Hc Hch Hskip Hget Hin]; subst.
    rewrite index_item_unfold, Hc, bind_run in Hrun. cbn [indexed_items_add] in Hrun.
    rewrite bind_run, (index_children_calls _ _ _ _ _ _ _ Hch Hskip Hget) in Hrun.
    destruct (for_each _ children _) as [[[] | e] st2] eqn:Hloop; [| discriminate Hrun].
    destruct (for_each_returns_elem _ _ child _ _
                ltac:(intros; apply index_item_grows) Hloop Hin) as (sa & sb & Hchild & [Hsub _]).
    assert (usage_id d ∈ indexed_items sb) as Hd by (by eapply IH).
    assert (grows st2 st') as [Hsub' _].
    { destruct skip.
      - injection Hrun as <-. reflexivity.
      - pose proof (push_item_grows course_key item (usage_id item) (effective_start item c) st2)
          as Hpush.
        by rewrite Hrun in Hpush. }
    by apply Hsub', Hsub.
Qed.

(** ** The scenarios of the specification, run on the model *)

(** Scenario B: 30 seconds after the edit the block is indexed again. *)
Example scenario_B_recent_edit_is_indexed :
  index_course (Some engine_with_old_block) (λ _, Returns (Some (edited_course 0)))
    "course-v1" true (Some 30)
  = (Returns (Some 0),
     Some (quiet_engine
             {[(DOCUMENT_TYPE, "block1") :=
                 {["course" := VStr "course-v1"; "id" := VStr "block1";
                   "title" := VStr "new"]}]})).
Proof. vm_compute. reflexivity. Qed.

(** Scenario D: a document whose item is no longer in the tree is removed. *)
Example scenario_D_vanished_item_is_removed :
  index_course (Some engine_with_orphan) (λ _, Returns (Some (node "course" None None None [])))
    "course-v1" true None
  = (Returns (Some 0), Some (quiet_engine ∅)).
Proof. vm_compute. reflexivity. Qed.

(** A block below a stale chapter keeps its old document: its id is
    recorded, nothing is pushed for it and the reconciliation leaves it. *)
Example scenario_stale_chapter_keeps_old_document :
  index_course (Some engine_with_old_block)
    (λ _, Returns (Some (node "course" None (Some 0) None
                           [node "chapter" None (Some 0) None
                              [leaf "block1" None (Some 0) (titled "new")]])))
    "course-v1" true (Some 90)
  = (Returns (Some 0), Some engine_with_old_block).
Proof. vm_compute. reflexivity. Qed.

(** * Further properties of the module *)

(** ** The document of an item *)

Lemma build_item_index_lookup course_key id d c k :
  build_item_index course_key id d c !! k =
  if decide (k = "start_date" ∧ is_Some c) then VDate <$> c
  else if decide (k = "id") then Some (VStr id)
  else match d !! k with
       | Some v => Some v
       | None => if decide (k = "course") then Some (VStr course_key) else None
       end.
Proof.
  unfold build_item_index, location_info. rewrite (right_id_L ∅ (∪)).
  assert (∀ k', (<["id" := VStr id]> (d ∪ {["course" := VStr course_key]}) : Doc) !! k' =
                if decide (k' = "id") then Some (VStr id)
                else match d !! k' with
                     | Some v => Some v
                     | None => if decide (k' = "course") then Some (VStr course_key) else None
                     end) as Hbase.
  { intros k'. destruct (decide (k' = "id")) as [-> | Hid].
    - by rewrite lookup_insert_eq.
    - rewrite lookup_insert_ne by done. rewrite lookup_union.
      destruct (d !! k') as [v |]; simpl.
      + by destruct ({["course" := VStr course_key]} !! k').
      + rewrite (left_id None _). destruct (decide (k' = "course")) as [-> | ?].
        * by rewrite lookup_singleton_eq.
        * by rewrite lookup_singleton_ne. }
  destruct c as [t |].
  - destruct (decide (k = "start_date")) as [-> | Hk].
    + rewrite lookup_insert_eq. by rewrite decide_True.
    + rewrite lookup_insert_ne by done. rewrite decide_False by tauto. apply Hbase.
  - rewrite decide_False by (intros [_ [? ?]]; done). apply Hbase.
Qed.

(** X1. In the document of an item the [id] is always the item's usage
    id, whatever the item's own dictionary says; [start_date] is the
    effective start date when there is one and the dictionary's own entry
    otherwise; [course] is the course key unless the dictionary has a
    [course] entry of its own, which wins; every other field is the
    dictionary's. *)
Theorem build_item_index_fields course_key id d c :
  build_item_index course_key id d c !! "id" = Some (VStr id)
  ∧ build_item_index course_key id d c !! "start_date"
    = match c with
      | Some t => Some (VDate t)
      | None => d !! "start_date"
      end
  ∧ build_item_index course_key id d c !! "course"
    = match d !! "course" with
      | Some v => Some v
      | None => Some (VStr course_key)
      end
  ∧ ∀ k, k ≠ "id" → k ≠ "start_date" → k ≠ "course" →
         build_item_index course_key id d c !! k = d !! k.
Proof.
  split_and!.
  - rewrite build_item_index_lookup. rewrite decide_False by (intros [? _]; done).
    by rewrite decide_True.
  - rewrite build_item_index_lookup. destruct c as [t |].
    + by rewrite decide_True.
    + rewrite decide_False by (intros [_ [? ?]]; done).
      rewrite decide_False by done. by destruct (d !! "start_date").
  - rewrite build_item_index_lookup. rewrite decide_False by (intros [? _]; done).
    rewrite decide_False by done. by destruct (d !! "course").
  - intros k Hid Hstart Hcourse. rewrite build_item_index_lookup.
    rewrite decide_False by tauto. rewrite decide_False by done.
    destruct (d !! k); [done |]. by rewrite decide_False.
Qed.

(** ** One item: [push_item] *)

Lemma doc_id_build_item_index course_key id d c :
  doc_id (build_item_index course_key id d c) = Some id.
Proof.
  unfold doc_id. rewrite build_item_index_lookup.
  rewrite decide_False by (intros [? _]; done). by rewrite decide_True.
Qed.

Lemma with_searcher_index_run course_key id d c st :
  with_searcher (engine_index DOCUMENT_TYPE (build_item_index course_key id d c)) st =
  if index_raises (searcher st) (build_item_index course_key id d c)
  then (Raises (CollaboratorError "index"),
        {| indexed_items := indexed_items st; error_list := error_list st;
           searcher := searcher st |})
  else (Returns tt,
        {| indexed_items := indexed_items st; error_list := error_list st;
           searcher := with_documents (searcher st)
                         (<[(DOCUMENT_TYPE, id) := build_item_index course_key id d c]>
                            (documents (searcher st))) |}).
Proof.
  unfold with_searcher, engine_index. rewrite doc_id_build_item_index.
  by destruct (index_raises (searcher st) _).
Qed.

Lemma walk_effect_refl st : walk_effect [] ∅ st st.
Proof.
  unfold walk_effect, refusals, stored. simpl.
  rewrite (right_id_L ∅ (∪)), app_nil_r. done.
Qed.

Lemma push_item_effect course_key item c st :
  (∀ e, index_dictionary item ≠ Some (Raises e)) →
  (push_item course_key item (usage_id item) c st).1 = Returns tt
  ∧ walk_effect (own_push course_key item c) ∅ st
      (push_item course_key item (usage_id item) c st).2.
Proof.
  intros Hdict. unfold push_item, own_push.
  destruct (index_dictionary item) as [[[d |] | e] |]; try (split; [done | apply walk_effect_refl]).
  2: { by destruct (Hdict e). }
  rewrite bind_run. simpl. case_bool_decide; [split; [done | apply walk_effect_refl] |].
  unfold try_except. rewrite with_searcher_index_run.
  unfold walk_effect, refusals, stored, store_push. simpl.
  destruct (index_raises (searcher st) _); simpl; rewrite (right_id_L ∅ (∪)); split_and!; try done.
  by rewrite app_nil_r.
Qed.

(** X2. When the item's dictionary is not empty and the engine takes the
    document, [push_item] leaves the engine with exactly that document
    under the item's id, in place of whatever was there, and with every
    other document as it was; neither the id set nor the error list
    changes. *)
Theorem push_item_files_document course_key item c st d :
  index_dictionary item = Some (Returns (Some d)) →
  d ≠ ∅ →
  index_raises (searcher st) (build_item_index course_key (usage_id item) d c) = false →
  let run := push_item course_key item (usage_id item) c st in
  run.1 = Returns tt
  ∧ documents (searcher run.2) !! (DOCUMENT_TYPE, usage_id item)
    = Some (build_item_index course_key (usage_id item) d c)
  ∧ (∀ k, k ≠ (DOCUMENT_TYPE, usage_id item) →
          documents (searcher run.2) !! k = documents (searcher st) !! k)
  ∧ error_list run.2 = error_list st
  ∧ indexed_items run.2 = indexed_items st.
Proof.
  intros Hdict Hd Haccept. cbv zeta.
  unfold push_item. rewrite Hdict, bind_run. simpl.
  rewrite bool_decide_eq_false_2 by done.
  unfold try_except. rewrite with_searcher_index_run, Haccept. simpl.
  split_and!; try done.
  - apply lookup_insert_eq.
  - intros k Hk. by apply lookup_insert_ne.
Qed.

Lemma push_item_files_document_witness :
  documents
    (searcher (push_item "course-v1" stale_leaf "block1" None
                 (initial_state engine_with_old_block)).2)
    !! (DOCUMENT_TYPE, "block1")
  = Some (build_item_index "course-v1" "block1" {["title" := VStr "x"]} None).
Proof.
  refine (proj1 (proj2 (push_item_files_document "course-v1" stale_leaf None
                          (initial_state engine_with_old_block) {["title" := VStr "x"]}
                          _ _ _))).
  - reflexivity.
  - vm_compute. discriminate.
  - reflexivity.
Defined.

(** X3. [push_item] raises only what [index_dictionary()] raises: a
    refusal of the engine is caught. When it returns, the error list is as
    before or has one more entry, which names the location of the item;
    when [index_dictionary()] raises, the state is left as it was. *)
Theorem push_item_raises_only_from_index_dictionary course_key item id c st :
  let run := push_item course_key item id c st in
  (run.1 = Returns tt ↔ ∀ e, index_dictionary item ≠ Some (Raises e))
  ∧ (∀ e, run.1 = Raises e → index_dictionary item = Some (Raises e) ∧ run.2 = st)
  ∧ (error_list run.2 = error_list st
     ∨ error_list run.2
       = (error_list st ++ ["Could not index item: " +:+ location item])%list).
Proof.
  cbv zeta. unfold push_item.
  destruct (index_dictionary item) as [[[d |] | e] |]; simpl.
  - rewrite bind_run. simpl. case_bool_decide.
    + split_and!; [split; [by intros _ e | done] | by intros e | by left].
    + unfold try_except. rewrite with_searcher_index_run.
      destruct (index_raises (searcher st) _); simpl.
      * split_and!; [split; [by intros _ e | done] | by intros e | by right].
      * split_and!; [split; [by intros _ e | done] | by intros e | by left].
  - split_and!; [split; [by intros _ e | done] | by intros e | by left].
  - split_and!; [| by intros e' [= <-] | by left].
    split; [done | intros Hno; by destruct (Hno e)].
  - split_and!; [split; [by intros _ e | done] | by intros e | by left].
Qed.

(** ** The walk of a tree without accessor failures *)

Lemma faultless_unfold triggered_at item :
  faultless triggered_at item =
  match index_dictionary item with
  | Some (Raises _) => false
  | _ => true
  end
  && (if has_children item then
        match get_children item with
        | Returns children => forallb (faultless triggered_at) children
        | Raises _ => false
        end
        && (bool_decide (triggered_at = None) || bool_decide (is_Some (subtree_edited_on item)))
      else true).
Proof. by destruct item. Qed.

Lemma walked_ids_unfold item :
  walked_ids item =
  if candidate item then
    {[usage_id item]} ∪
    (if has_children item then
       match get_children item with
       | Returns children => ⋃ (walked_ids <$> children)
       | Raises _ => ∅
       end
     else ∅)
  else ∅.
Proof. by destruct item. Qed.

Lemma pushes_unfold course_key triggered_at item c skip :
  pushes course_key triggered_at item c skip =
  if candidate item then
    ((if has_children item then
       match skip_child_index triggered_at item skip, get_children item with
       | Returns skip_child, Returns children =>
           flat_map (λ child_item,
               pushes course_key triggered_at child_item (effective_start item c) skip_child)
             children
       | _, _ => []
       end
     else [])
     ++ (if skip then [] else own_push course_key item (effective_start item c)))%list
  else [].
Proof. by destruct item. Qed.

Lemma refusals_app refuses ps1 ps2 :
  refusals refuses (ps1 ++ ps2) = (refusals refuses ps1 ++ refusals refuses ps2)%list.
Proof. unfold refusals. by rewrite List.filter_app, fmap_app. Qed.

Lemma stored_app refuses ps1 ps2 docs :
  stored refuses (ps1 ++ ps2) docs = stored refuses ps2 (stored refuses ps1 docs).
Proof. unfold stored. by rewrite foldl_app. Qed.

Lemma walk_effect_trans ps1 ids1 ps2 ids2 st st1 st2 :
  walk_effect ps1 ids1 st st1 →
  walk_effect ps2 ids2 st1 st2 →
  walk_effect (ps1 ++ ps2) (ids1 ∪ ids2) st st2.
Proof.
  intros (Hi1 & He1 & Hd1 & Hr1 & Hs1 & Hm1) (Hi2 & He2 & Hd2 & Hr2 & Hs2 & Hm2).
  unfold walk_effect. rewrite Hi2, Hi1, He2, He1, Hd2, Hd1, Hr2, Hr1, Hs2, Hs1, Hm2, Hm1.
  rewrite refusals_app, stored_app, (assoc_L (∪)), (assoc_L (++)). done.
Qed.

Lemma effect_ret {A} (a : A) : effect (ret a) [] ∅.
Proof. intros st. split; [by exists a | apply walk_effect_refl]. Qed.

Lemma effect_bind {A B} (m : M A) (k : A → M B) ps1 ids1 ps2 ids2 :
  effect m ps1 ids1 →
  (∀ a, effect (k a) ps2 ids2) →
  effect (m ≫= k) (ps1 ++ ps2) (ids1 ∪ ids2).
Proof.
  intros Hm Hk st. rewrite bind_run.
  destruct (Hm st) as [[a Ha] Hw]. destruct (m st) as [[a' | e] st1]; simpl in *; [| done].
  destruct (Hk a' st1) as [Hret Hw']. split; [exact Hret |].
  by eapply walk_effect_trans.
Qed.

Lemma effect_eq {A} (m : M A) ps ids ps' ids' :
  effect m ps ids → ps = ps' → ids = ids' → effect m ps' ids'.
Proof. by intros ? <- <-. Qed.

Lemma effect_for_each {A} (body : A → M unit) (P : A → list push) (I : A → gset string) l :
  Forall (λ x, effect (body x) (P x) (I x)) l →
  effect (for_each body l) (flat_map P l) (⋃ (I <$> l)).
Proof.
  induction 1 as [| x l Hx _ IH]; simpl.
  - apply effect_ret.
  - apply effect_bind; [exact Hx | intros _; exact IH].
Qed.

Lemma effect_indexed_items_add id : effect (indexed_items_add id) [] {[id]}.
Proof.
  intros st. split; [by exists tt |].
  unfold walk_effect, refusals, stored. simpl.
  rewrite app_nil_r, (comm_L (∪)). done.
Qed.

Lemma effect_push_item course_key item c :
  (∀ e, index_dictionary item ≠ Some (Raises e)) →
  effect (push_item course_key item (usage_id item) c) (own_push course_key item c) ∅.
Proof.
  intros Hdict st. destruct (push_item_effect course_key item c st Hdict) as [Hret Hw].
  split; [by exists tt | exact Hw].
Qed.

Lemma index_item_effect course_key triggered_at item :
  faultless triggered_at item = true →
  ∀ c skip,
    effect (index_item course_key triggered_at item c skip)
      (pushes course_key triggered_at item c skip) (walked_ids item).
Proof.
  induction item as [item IH] using Item_tree_ind. intros Hfault c skip.
  rewrite faultless_unfold in Hfault. apply andb_true_iff in Hfault as [Hdict Hsub].
  rewrite index_item_unfold, pushes_unfold, walked_ids_unfold.
  destruct (candidate item); [| apply effect_ret].
  eapply effect_eq.
  - apply effect_bind; [apply effect_indexed_items_add | intros _].
    apply effect_bind; [| intros _].
    + unfold index_children.
      instantiate (1 := if has_children item then
                          match get_children item with
                          | Returns children => ⋃ (walked_ids <$> children)
                          | Raises _ => ∅
                          end
                        else ∅).
      instantiate (1 := if has_children item then
                          match skip_child_index triggered_at item skip, get_children item with
                          | Returns skip_child, Returns children =>
                              flat_map (λ child_item,
                                  pushes course_key triggered_at child_item
                                    (effective_start item c) skip_child)
                                children
                          | _, _ => []
                          end
                        else []).
      destruct (has_children item); [| apply effect_ret].
      apply andb_true_iff in Hsub as [Hchildren Hedited].
      destruct (get_children item) as [children | e] eqn:Hget; [| done].
      assert (∃ skip_child, skip_child_index triggered_at item skip = Returns skip_child)
        as [skip_child Hskip].
      { unfold skip_child_index. destruct skip; [by eexists |].
        destruct triggered_at as [t |]; [| by eexists].
        apply orb_true_iff in Hedited as [Hnone | Hsome].
        - by apply bool_decide_eq_true in Hnone.
        - apply bool_decide_eq_true in Hsome as [edited ->]. by eexists. }
      rewrite Hskip. simpl. intros st. rewrite bind_run. simpl.
      revert st. change (effect
        (for_each (λ child_item, index_item course_key triggered_at child_item
                                   (effective_start item c) skip_child) children)
        (flat_map (λ child_item, pushes course_key triggered_at child_item
                                   (effective_start item c) skip_child) children)
        (⋃ (walked_ids <$> children))).
      apply effect_for_each.
      specialize (IH children eq_refl).
      apply Forall_forall. intros child Hin.
      rewrite Forall_forall in IH. apply IH; [exact Hin |].
      rewrite forallb_forall in Hchildren. apply Hchildren. by apply list_elem_of_In.
    + instantiate (1 := ∅).
      instantiate (1 := if skip then [] else own_push course_key item (effective_start item c)).
      destruct skip; [apply effect_ret |].
      apply effect_push_item. intros e He. by rewrite He in Hdict.
  - reflexivity.
  - by rewrite (right_id_L ∅ (∪)).
Qed.

Lemma refusals_accepting refuses ps :
  (∀ d, refuses d = false) → refusals refuses ps = [].
Proof.
  intros Haccept. unfold refusals. induction ps as [| p ps IH]; [done |].
  simpl. by rewrite Haccept.
Qed.

(** X4. On a tree without accessor failures the walk of an item always
    returns, whatever the engine does with the documents, whatever the
    skip flag and [triggered_at]: a refusal of the engine never stops the
    walk. *)
Theorem faultless_walk_returns course_key triggered_at item c skip st :
  faultless triggered_at item = true →
  (index_item course_key triggered_at item c skip st).1 = Returns tt.
Proof.
  intros Hfault.
  destruct (index_item_effect course_key triggered_at item Hfault c skip st) as [[[] Hret] _].
  exact Hret.
Qed.

Lemma faultless_walk_returns_witness :
  (index_item "course-v1" (Some 90) stale_chapter None false
     (initial_state refusing_engine)).1 = Returns tt.
Proof.
  refine (faultless_walk_returns "course-v1" (Some 90) stale_chapter None false
            (initial_state refusing_engine) _).
  reflexivity.
Defined.

(** X5. On a tree without accessor failures the walk adds to the
    indexed-id set exactly the ids of the items of the subtree that are
    indexable or have children and hang below such items: the set does not
    depend on the skip flag, on [triggered_at], on the start dates or on
    the engine. *)
Theorem faultless_walk_records_walked_ids course_key triggered_at item c skip st :
  faultless triggered_at item = true →
  indexed_items (index_item course_key triggered_at item c skip st).2
  = indexed_items st ∪ walked_ids item.
Proof.
  intros Hfault.
  destruct (index_item_effect course_key triggered_at item Hfault c skip st)
    as [_ (Hids & _)].
  exact Hids.
Qed.

Lemma faultless_walk_records_walked_ids_witness :
  indexed_items (index_item "course-v1" (Some 90) stale_chapter None false
                   (initial_state refusing_engine)).2
  = indexed_items (initial_state refusing_engine) ∪ walked_ids stale_chapter.
Proof.
  refine (faultless_walk_records_walked_ids "course-v1" (Some 90) stale_chapter None false
            (initial_state refusing_engine) _).
  reflexivity.
Defined.

(** X6. On a tree without accessor failures the walk appends to the error
    list one entry for each document the engine refuses, in the order of
    the pushes (children before their parent), each naming the location of
    its item, and nothing else; with an engine that takes every document
    the error list is left as it was. *)
Theorem faultless_walk_errors course_key triggered_at item c skip st :
  faultless triggered_at item = true →
  error_list (index_item course_key triggered_at item c skip st).2
  = (error_list st ++
     ((λ p, "Could not index item: " +:+ push_location p) <$>
        List.filter (λ p, index_raises (searcher st) (push_doc p))
          (pushes course_key triggered_at item c skip)))%list
  ∧ ((∀ d, index_raises (searcher st) d = false) →
     error_list (index_item course_key triggered_at item c skip st).2 = error_list st).
Proof.
  intros Hfault.
  destruct (index_item_effect course_key triggered_at item Hfault c skip st)
    as [_ (_ & Herr & _)].
  split; [exact Herr |].
  intros Haccept. rewrite Herr, refusals_accepting by done. apply app_nil_r.
Qed.

Lemma faultless_walk_errors_witness :
  error_list (index_item "course-v1" None stale_chapter None false
                (initial_state refusing_engine)).2
  = ["Could not index item: unit"; "Could not index item: chapter"].
Proof.
  refine (proj1 (faultless_walk_errors "course-v1" None stale_chapter None false
                   (initial_state refusing_engine) _)).
  reflexivity.
Defined.

(** X7. On a tree without accessor failures the documents the walk leaves
    in the engine are the ones it found, with each document the engine
    took filed under the id of its item, in the order of the pushes, a
    later one replacing an earlier one with the same id; what the engine
    refuses or accepts is not changed by the walk. *)
Theorem faultless_walk_documents course_key triggered_at item c skip st :
  faultless triggered_at item = true →
  let st' := (index_item course_key triggered_at item c skip st).2 in
  documents (searcher st')
  = foldl (λ docs p,
             if index_raises (searcher st) (push_doc p) then docs
             else <[(DOCUMENT_TYPE, push_id p) := push_doc p]> docs)
      (documents (searcher st)) (pushes course_key triggered_at item c skip)
  ∧ index_raises (searcher st') = index_raises (searcher st)
  ∧ search_raises (searcher st') = search_raises (searcher st)
  ∧ remove_raises (searcher st') = remove_raises (searcher st).
Proof.
  intros Hfault.
  destruct (index_item_effect course_key triggered_at item Hfault c skip st)
    as [_ (_ & _ & Hdocs & Hbehaviour)].
  split; [exact Hdocs | exact Hbehaviour].
Qed.

Lemma faultless_walk_documents_witness :
  documents (searcher (index_item "course-v1" (Some 90) stale_chapter None false
                         (initial_state (quiet_engine ∅))).2)
  = {[(DOCUMENT_TYPE, "chapter") :=
        build_item_index "course-v1" "chapter" {["title" := VStr "chapter"]} None]}.
Proof.
  refine (proj1 (faultless_walk_documents "course-v1" (Some 90) stale_chapter None false
                   (initial_state (quiet_engine ∅)) _)).
  reflexivity.
Defined.

(** ** Edges of the staleness test *)

(** X8. When [triggered_at] is given and an item with children that is
    not already skipped has no [subtree_edited_on], the subtraction of line
    72 raises [TypeError]: the call leaves with the item's id recorded and
    nothing else done, so no child is visited and the item's own document
    is not pushed. *)
Theorem missing_edit_time_raises_TypeError course_key t item c st :
  has_children item = true →
  subtree_edited_on item = None →
  index_item course_key (Some t) item c false st
  = (Raises TypeError,
     {| indexed_items := {[usage_id item]} ∪ indexed_items st;
        error_list := error_list st;
        searcher := searcher st |}).
Proof.
  intros Hch Hed. rewrite index_item_unfold, candidate_spec, Hch, orb_true_r.
  rewrite bind_run. cbn [indexed_items_add]. rewrite bind_run.
  unfold index_children, skip_child_index. rewrite Hch, Hed. reflexivity.
Qed.

Lemma missing_edit_time_raises_TypeError_witness :
  index_item "course-v1" (Some 90) dated_chapter None false (initial_state (quiet_engine ∅))
  = (Raises TypeError,
     {| indexed_items := {["chapter"]} ∪ ∅; error_list := [];
        searcher := quiet_engine ∅ |}).
Proof.
  refine (missing_edit_time_raises_TypeError "course-v1" 90 dated_chapter None
            (initial_state (quiet_engine ∅)) _ _).
  - reflexivity.
  - reflexivity.
Defined.

Lemma for_each_ext {A} (f g : A → M unit) l :
  Forall (λ x, ∀ st, f x st = g x st) l →
  ∀ st, for_each f l st = for_each g l st.
Proof.
  induction 1 as [| x l Hx _ IH]; intros st; [done |].
  cbn [for_each]. rewrite !bind_run, Hx.
  destruct (g x st) as [[[] | e] st1]; [apply IH | done].
Qed.

(** X9. The staleness bound is strict and is tested on containers only:
    when every item with children in a subtree was edited at most
    [REINDEX_AGE] (60 seconds) before [triggered_at], the triggered walk
    does exactly what the full walk (no [triggered_at]) does, on every
    state. *)
Theorem fresh_tree_walk_is_full_walk course_key t item c st :
  fresh t item = true →
  index_item course_key (Some t) item c false st
  = index_item course_key None item c false st.
Proof.
  revert c st. induction item as [item IH] using Item_tree_ind. intros c st Hfresh.
  assert (fresh t item =
          if has_children item then
            match subtree_edited_on item with
            | Some edited => bool_decide (t - edited ≤ REINDEX_AGE)
            | None => false
            end
            && match get_children item with
               | Returns children => forallb (fresh t) children
               | Raises _ => true
               end
          else true) as Hunfold by (by destruct item).
  rewrite Hunfold in Hfresh. clear Hunfold.
  rewrite !index_item_unfold. destruct (candidate item); [| done].
  rewrite !bind_run. cbn [indexed_items_add]. rewrite !bind_run.
  set (st1 := {| indexed_items := {[usage_id item]} ∪ indexed_items st;
                 error_list := error_list st; searcher := searcher st |}).
  assert (index_children course_key (Some t) item (effective_start item c) false st1
          = index_children course_key None item (effective_start item c) false st1) as ->;
    [| done].
  unfold index_children, skip_child_index.
  destruct (has_children item); [| done].
  apply andb_true_iff in Hfresh as [Hedited Hchildren].
  destruct (subtree_edited_on item) as [edited |]; [| done].
  apply bool_decide_eq_true in Hedited.
  replace (t - edited >? REINDEX_AGE) with false
    by (symmetry; rewrite Z.gtb_ltb; apply Z.ltb_ge; lia).
  simpl. rewrite !bind_run. simpl.
  destruct (get_children item) as [children | e] eqn:Hget; [| done].
  apply for_each_ext. specialize (IH children eq_refl).
  apply Forall_forall. intros child Hin st'.
  rewrite Forall_forall in IH. apply IH; [exact Hin |].
  rewrite forallb_forall in Hchildren. apply Hchildren. by apply list_elem_of_In.
Qed.

Lemma fresh_tree_walk_is_full_walk_witness :
  index_item "course-v1" (Some 90) sixty_second_chapter None false
    (initial_state (quiet_engine ∅))
  = index_item "course-v1" None sixty_second_chapter None false
      (initial_state (quiet_engine ∅)).
Proof.
  refine (fresh_tree_walk_is_full_walk "course-v1" 90 sixty_second_chapter None
            (initial_state (quiet_engine ∅)) _).
  reflexivity.
Defined.

(** ** What the walk never does *)

#[global] Instance only_writes_preorder : PreOrder only_writes.
Proof.
  split.
  - intros st. split; [reflexivity | by intros t i []].
  - intros st1 st2 st3 [Hg12 Hw12] [Hg23 Hw23]. split; [by etransitivity |].
    intros t i Hne.
    destruct (decide (documents (searcher st3) !! (t, i) = documents (searcher st2) !! (t, i)))
      as [Heq | Hne'].
    + rewrite Heq in Hne |- *. destruct (Hw12 t i Hne) as (-> & Hin & Hsome).
      split_and!; [done | | done]. destruct Hg23 as [Hsub _]. by apply Hsub.
    + by apply Hw23.
Qed.

Lemma only_writes_same_documents st st' :
  grows st st' →
  documents (searcher st') = documents (searcher st) →
  only_writes st st'.
Proof. intros Hg Hd. split; [exact Hg |]. intros t i Hne. by rewrite Hd in Hne. Qed.

Lemma indexed_items_add_only_writes id : keeps only_writes (indexed_items_add id).
Proof.
  intros st. apply only_writes_same_documents; [apply indexed_items_add_grows | done].
Qed.

Lemma push_item_only_writes course_key item id c st :
  id ∈ indexed_items st →
  only_writes st (push_item course_key item id c st).2.
Proof.
  intros Hin. split; [apply push_item_grows |].
  unfold push_item.
  destruct (index_dictionary item) as [[[d |] | e] |]; simpl; try (by intros t i []).
  rewrite bind_run. simpl. case_bool_decide; [by intros t i [] |].
  unfold try_except. rewrite with_searcher_index_run.
  destruct (index_raises (searcher st) _); simpl; [by intros t i [] |].
  intros t i Hne. destruct (decide ((DOCUMENT_TYPE, id) = (t, i))) as [[= <- <-] | Hother].
  - rewrite lookup_insert_eq. by split_and!.
  - by rewrite lookup_insert_ne in Hne.
Qed.

Lemma index_item_only_writes course_key triggered_at item :
  ∀ c skip, keeps only_writes (index_item course_key triggered_at item c skip).
Proof.
  induction item as [item IH] using Item_tree_ind. intros c skip st.
  rewrite index_item_unfold. destruct (candidate item); [| reflexivity].
  rewrite bind_run. cbn [indexed_items_add]. rewrite bind_run.
  set (st1 := {| indexed_items := {[usage_id item]} ∪ indexed_items st;
                 error_list := error_list st; searcher := searcher st |}).
  assert (only_writes st st1) as H01 by apply (indexed_items_add_only_writes (usage_id item) st).
  assert (keeps only_writes
            (index_children course_key triggered_at item (effective_start item c) skip))
    as Hchildren.
  { unfold index_children. destruct (has_children item); [| apply (keeps_ret only_writes)].
    apply (keeps_bind_lift only_writes). intros skip_child _.
    destruct (get_children item) as [children | e] eqn:Hget;
      [| apply (keeps_raise only_writes)].
    apply (keeps_for_each only_writes). specialize (IH children eq_refl).
    eapply Forall_impl; [exact IH |]. intros child Hchild. apply Hchild. }
  specialize (Hchildren st1).
  destruct (index_children _ _ _ _ _ st1) as [[[] | e] st2]; simpl in *.
  - destruct skip; simpl.
    + by etransitivity.
    + etransitivity; [exact H01 |]. etransitivity; [exact Hchildren |].
      apply push_item_only_writes. destruct Hchildren as [[Hsub _] _].
      apply Hsub. simpl. set_solver.
  - by etransitivity.
Qed.

(** X10. The walk never removes a document and writes only under the ids
    it records: whatever the tree, the engine and the failures on the way,
    a document that differs after [index_item] is a courseware document
    under an id of the indexed-id set, and it is there; a document that was
    in the engine before the call is still under its id afterwards. *)
Theorem walk_only_writes_under_recorded_ids course_key triggered_at item c skip st :
  let st' := (index_item course_key triggered_at item c skip st).2 in
  (∀ t i, documents (searcher st') !! (t, i) ≠ documents (searcher st) !! (t, i) →
          t = DOCUMENT_TYPE ∧ i ∈ indexed_items st')
  ∧ (∀ k, is_Some (documents (searcher st) !! k) → is_Some (documents (searcher st') !! k)).
Proof.
  cbv zeta.
  destruct (index_item_only_writes course_key triggered_at item c skip st) as [_ Hw].
  split.
  - intros t i Hne. destruct (Hw t i Hne) as (? & ? & _). done.
  - intros [t i] Hsome.
    destruct (decide (documents (searcher (index_item course_key triggered_at item c skip st).2)
                        !! (t, i) = documents (searcher st) !! (t, i))) as [-> | Hne]; [done |].
    by destruct (Hw t i Hne) as (_ & _ & ?).
Qed.

(** ** A whole pass over a tree without accessor failures *)

Lemma remove_each_behaviour result_ids st :
  index_raises (searcher (remove_each result_ids st).2) = index_raises (searcher st)
  ∧ search_raises (searcher (remove_each result_ids st).2) = search_raises (searcher st).
Proof.
  revert st. induction result_ids as [| id rest IH]; intros st; [done |].
  unfold remove_each. cbn [for_each]. rewrite bind_run, with_searcher_remove_run.
  destruct (remove_raises (searcher st) id); [done |].
  fold (remove_each rest). destruct (IH
    {| indexed_items := indexed_items st; error_list := error_list st;
       searcher := with_documents (searcher st)
                     (delete (DOCUMENT_TYPE, id) (documents (searcher st))) |}) as [-> ->].
  done.
Qed.

Lemma purged_lookup course_key indexed docs t i d :
  purged course_key indexed docs !! (t, i) = Some d
  ↔ docs !! (t, i) = Some d ∧ ¬ orphan course_key indexed t i d.
Proof.
  unfold purged. rewrite map_lookup_filter_Some. simpl.
  rewrite <- search_hit_orphan, not_true_iff_false. done.
Qed.

Lemma remove_deleted_items_purges course_key st :
  answers (searcher st) →
  let run := remove_deleted_items course_key st in
  run.1 = Returns tt
  ∧ indexed_items run.2 = indexed_items st
  ∧ error_list run.2 = error_list st
  ∧ documents (searcher run.2) = purged course_key (indexed_items st) (documents (searcher st))
  ∧ index_raises (searcher run.2) = index_raises (searcher st)
  ∧ search_raises (searcher run.2) = search_raises (searcher st)
  ∧ remove_raises (searcher run.2) = remove_raises (searcher st).
Proof.
  intros [Hsearch Hremove]. cbv zeta. rewrite remove_deleted_items_run, Hsearch.
  set (st0 := {| indexed_items := indexed_items st; error_list := error_list st;
                 searcher := searcher st |}).
  destruct (remove_each_spec (orphan_ids course_key st) st0)
    as (Hi & He & Hr & Honly & Hkeep & Hgone & Hret).
  destruct (remove_each_behaviour (orphan_ids course_key st) st0) as [Hindex Hsearch'].
  assert ((remove_each (orphan_ids course_key st) st0).1 = Returns tt) as Hdone.
  { apply Hret. intros i _. apply Hremove. }
  split_and!;
    [exact Hdone | exact Hi | exact He | | exact Hindex
     | rewrite Hsearch'; exact Hsearch | exact Hr].
  apply map_eq. intros [t i]. apply option_eq. intros d. rewrite purged_lookup. split.
  - intros Hd'. assert (documents (searcher st) !! (t, i) = Some d) as Hd.
    { destruct (Honly (t, i)) as [Hnone | Hsame]; simpl in *; congruence. }
    split; [exact Hd |]. intros Horphan. pose proof Horphan as [-> _].
    rewrite Hgone in Hd'; [done | done |]. apply elem_of_orphan_ids. by exists d.
  - intros [Hd Hno]. rewrite Hkeep; [done |].
    destruct (decide (t = DOCUMENT_TYPE)) as [-> | ?]; [right | by left].
    intros (d' & Hd' & Horphan)%elem_of_orphan_ids. by simplify_eq.
Qed.

Lemma engine_eta (e : SearchEngine) :
  e = with_documents e (documents e).
Proof. by destruct e. Qed.

Lemma engine_eq (e e' : SearchEngine) :
  documents e = documents e' →
  index_raises e = index_raises e' →
  search_raises e = search_raises e' →
  remove_raises e = remove_raises e' →
  e = e'.
Proof. destruct e, e'; simpl. by intros -> -> -> ->. Qed.

Lemma walk_and_reconcile_faultless course_key triggered_at course searcher0 :
  faultless_course triggered_at course = true →
  answers searcher0 →
  let run := walk_and_reconcile course_key triggered_at (Some course) (initial_state searcher0) in
  run.1 = Returns tt
  ∧ indexed_items run.2 = course_ids course
  ∧ error_list run.2
    = refusals (index_raises searcher0) (course_pushes course_key triggered_at course)
  ∧ searcher run.2 = engine_after_pass course_key triggered_at course searcher0.
Proof.
  intros Hfault Hanswers. cbv zeta.
  unfold faultless_course, course_pushes, course_ids, engine_after_pass, walk_and_reconcile in *.
  unfold course_pushes, course_ids.
  destruct (get_children course) as [children | e]; [| done].
  rewrite bind_run. simpl. rewrite bind_run.
  assert (effect (for_each (λ item, index_item course_key triggered_at item (start course) false)
                    children)
            (flat_map (λ item, pushes course_key triggered_at item (start course) false) children)
            (⋃ (walked_ids <$> children))) as Hwalk.
  { apply effect_for_each. apply Forall_forall. intros child Hin.
    apply index_item_effect. rewrite forallb_forall in Hfault.
    apply Hfault. by apply list_elem_of_In. }
  destruct (Hwalk (initial_state searcher0)) as [[[] Hret] (Hi & He & Hd & Hri & Hrs & Hrr)].
  destruct (for_each _ children _) as [[[] | e] st1]; simpl in *; [| done].
  assert (answers (searcher st1)) as Hanswers1.
  { destruct Hanswers as [Hs Hr]. split; [by rewrite Hrs | intros id; by rewrite Hrr]. }
  destruct (remove_deleted_items_purges course_key st1 Hanswers1)
    as (Hdone & Hi' & He' & Hd' & Hri' & Hrs' & Hrr').
  split_and!.
  - exact Hdone.
  - rewrite Hi', Hi. apply (left_id_L ∅ (∪)).
  - by rewrite He', He.
  - apply engine_eq; simpl.
    + rewrite Hd', Hi, Hd. by rewrite (left_id_L ∅ (∪)).
    + by rewrite Hri'.
    + by rewrite Hrs'.
    + by rewrite Hrr'.
Qed.

Lemma index_course_faultless
    searcher0 (modulestore : ModuleStore) course_key raise_on_error triggered_at course :
  modulestore course_key = Returns (Some course) →
  faultless_course triggered_at course = true →
  answers searcher0 →
  index_course (Some searcher0) modulestore course_key raise_on_error triggered_at
  = (if raise_on_error
        && negb (bool_decide
                   (refusals (index_raises searcher0)
                      (course_pushes course_key triggered_at course) = []))
     then Raises (SearchIndexingError "Error(s) present during indexing"
                    (refusals (index_raises searcher0)
                       (course_pushes course_key triggered_at course)))
     else Returns (Some 0),
     Some (engine_after_pass course_key triggered_at course searcher0)).
Proof.
  intros Hcourse Hfault Hanswers.
  unfold index_course. rewrite Hcourse.
  destruct (guarded_pass_state course_key triggered_at (Some course) (initial_state searcher0))
    as (Hs & _ & He).
  destruct (walk_and_reconcile_faultless course_key triggered_at course searcher0
              Hfault Hanswers) as (Hret & _ & Herr & Hengine).
  rewrite Hret, app_nil_r, Herr in He. rewrite Hengine in Hs. rewrite He, Hs.
  by destruct (raise_on_error && _).
Qed.

(** X11. A pass over a course on which no accessor raises, with an engine
    that answers the search and the removals, records no general error:
    the error list is exactly the list of the refused documents, so
    [index_course] raises (under [raise_on_error]) only when the engine
    refused a document, and with an engine that takes every document it
    returns 0. The engine it leaves holds what the pushes stored, less the
    courseware documents of the course whose id the walk did not record. *)
Theorem faultless_pass_result
    searcher0 (modulestore : ModuleStore) course_key raise_on_error triggered_at course :
  modulestore course_key = Returns (Some course) →
  faultless_course triggered_at course = true →
  answers searcher0 →
  let errors :=
    refusals (index_raises searcher0) (course_pushes course_key triggered_at course) in
  index_course (Some searcher0) modulestore course_key raise_on_error triggered_at
  = (if raise_on_error && negb (bool_decide (errors = []))
     then Raises (SearchIndexingError "Error(s) present during indexing" errors)
     else Returns (Some 0),
     Some (engine_after_pass course_key triggered_at course searcher0))
  ∧ ((∀ d, index_raises searcher0 d = false) →
     (index_course (Some searcher0) modulestore course_key raise_on_error triggered_at).1
     = Returns (Some 0)).
Proof.
  intros Hcourse Hfault Hanswers. cbv zeta.
  pose proof (index_course_faultless searcher0 modulestore course_key raise_on_error
                triggered_at course Hcourse Hfault Hanswers) as Hrun.
  split; [exact Hrun |].
  intros Haccept. rewrite Hrun, refusals_accepting by done.
  by rewrite andb_false_r.
Qed.

Lemma faultless_pass_result_witness :
  (index_course (Some engine_with_orphan) (λ _, Returns (Some (edited_course 0)))
     "course-v1" true (Some 30)).1
  = Returns (Some 0).
Proof.
  refine (proj2 (faultless_pass_result engine_with_orphan
                   (λ _, Returns (Some (edited_course 0))) "course-v1" true (Some 30)
                   (edited_course 0) _ _ _) _).
  - reflexivity.
  - reflexivity.
  - split; [reflexivity | intros id; reflexivity].
  - intros d. reflexivity.
Defined.

Lemma stored_lookup_cases refuses ps docs docs' k :
  (stored refuses ps docs !! k = docs !! k ∧ stored refuses ps docs' !! k = docs' !! k)
  ∨ stored refuses ps docs !! k = stored refuses ps docs' !! k.
Proof.
  revert docs docs'. induction ps as [| p ps IH]; intros docs docs'; [by left |].
  unfold stored in *. cbn [foldl].
  assert (∀ m, store_push refuses m p =
               if refuses (push_doc p) then m
               else <[(DOCUMENT_TYPE, push_id p) := push_doc p]> m) as Hstep by done.
  rewrite !Hstep. clear Hstep.
  destruct (refuses (push_doc p)); [apply IH |].
  destruct (IH (<[(DOCUMENT_TYPE, push_id p) := push_doc p]> docs)
              (<[(DOCUMENT_TYPE, push_id p) := push_doc p]> docs')) as [[H1 H2] | Hsame];
    [| by right].
  rewrite H1, H2. destruct (decide ((DOCUMENT_TYPE, push_id p) = k)) as [<- | Hne].
  - right. by rewrite !lookup_insert_eq.
  - left. by rewrite !lookup_insert_ne.
Qed.

Lemma stored_lookup_unwritten refuses ps docs k :
  (∀ p, p ∈ ps → refuses (push_doc p) = false → (DOCUMENT_TYPE, push_id p) ≠ k) →
  stored refuses ps docs !! k = docs !! k.
Proof.
  revert docs. induction ps as [| p ps IH]; intros docs Hps; [done |].
  unfold stored in *. cbn [foldl]. rewrite IH.
  - unfold store_push. destruct (refuses (push_doc p)) eqn:Hp; [done |].
    apply lookup_insert_ne. apply Hps; [apply list_elem_of_here | done].
  - intros q Hq. apply Hps. by apply list_elem_of_further.
Qed.

Lemma purged_lookup_indexed course_key indexed docs t i :
  i ∈ indexed →
  purged course_key indexed docs !! (t, i) = docs !! (t, i).
Proof.
  intros Hin. apply option_eq. intros d. rewrite purged_lookup.
  split; [by intros [? _] | intros Hd]. split; [done |]. by intros (_ & _ & ?).
Qed.

Lemma purged_stored_idempotent course_key indexed refuses ps docs :
  purged course_key indexed
    (stored refuses ps (purged course_key indexed (stored refuses ps docs)))
  = purged course_key indexed (stored refuses ps docs).
Proof.
  apply map_eq. intros [t i]. apply option_eq. intros d. rewrite !purged_lookup.
  destruct (stored_lookup_cases refuses ps docs
              (purged course_key indexed (stored refuses ps docs)) (t, i))
    as [[_ H3] | Hsame].
  - rewrite H3, purged_lookup. tauto.
  - by rewrite <- Hsame.
Qed.

(** X12. After a pass over a course on which no accessor raises, with an
    engine that answers the search and the removals, no orphan is left:
    every courseware document in the engine whose [course] field is the
    course key has an id that the walk recorded. *)
Theorem no_orphan_after_faultless_pass
    searcher0 (modulestore : ModuleStore) course_key raise_on_error triggered_at course :
  modulestore course_key = Returns (Some course) →
  faultless_course triggered_at course = true →
  answers searcher0 →
  ∃ after,
    (index_course (Some searcher0) modulestore course_key raise_on_error triggered_at).2
    = Some after
    ∧ ∀ i d, documents after !! (DOCUMENT_TYPE, i) = Some d →
             d !! "course" = Some (VStr course_key) →
             i ∈ course_ids course.
Proof.
  intros Hcourse Hfault Hanswers.
  rewrite (index_course_faultless _ _ _ _ _ _ Hcourse Hfault Hanswers).
  eexists. split; [reflexivity |].
  intros i d Hd Hkey. simpl in Hd. apply purged_lookup in Hd as [_ Hno].
  destruct (decide (i ∈ course_ids course)) as [? | Hni]; [done |].
  destruct Hno. by split_and!.
Qed.

Lemma no_orphan_after_faultless_pass_witness :
  ∃ after,
    (index_course (Some engine_with_orphan) (λ _, Returns (Some (edited_course 0)))
       "course-v1" true (Some 30)).2
    = Some after
    ∧ ∀ i d, documents after !! (DOCUMENT_TYPE, i) = Some d →
             d !! "course" = Some (VStr "course-v1") →
             i ∈ course_ids (edited_course 0).
Proof.
  refine (no_orphan_after_faultless_pass engine_with_orphan
            (λ _, Returns (Some (edited_course 0))) "course-v1" true (Some 30)
            (edited_course 0) _ _ _).
  - reflexivity.
  - reflexivity.
  - split; [reflexivity | intros id; reflexivity].
Defined.

(** X13. A pass over a course on which no accessor raises, with an engine
    that answers the search and the removals, leaves alone the document of
    every recorded id for which the engine took no new document in this
    pass (the item was skipped as stale, had an empty dictionary, or its
    document was refused): the engine holds under that id what it held
    before the pass. *)
Theorem unpushed_item_keeps_its_document
    searcher0 (modulestore : ModuleStore) course_key raise_on_error triggered_at course i :
  modulestore course_key = Returns (Some course) →
  faultless_course triggered_at course = true →
  answers searcher0 →
  i ∈ course_ids course →
  (∀ p, p ∈ course_pushes course_key triggered_at course →
        index_raises searcher0 (push_doc p) = false →
        push_id p ≠ i) →
  ∃ after,
    (index_course (Some searcher0) modulestore course_key raise_on_error triggered_at).2
    = Some after
    ∧ documents after !! (DOCUMENT_TYPE, i) = documents searcher0 !! (DOCUMENT_TYPE, i).
Proof.
  intros Hcourse Hfault Hanswers Hin Hunpushed.
  rewrite (index_course_faultless _ _ _ _ _ _ Hcourse Hfault Hanswers).
  eexists. split; [reflexivity |]. simpl.
  rewrite purged_lookup_indexed by done. apply stored_lookup_unwritten.
  intros p Hp Haccept [= Heq]. by apply (Hunpushed p).
Qed.

Lemma unpushed_item_keeps_its_document_witness :
  ∃ after,
    (index_course (Some engine_with_old_block)
       (λ _, Returns (Some (node "course" None (Some 0) None [edited_course 0])))
       "course-v1" true (Some 90)).2
    = Some after
    ∧ documents after !! (DOCUMENT_TYPE, "block1")
      = documents engine_with_old_block !! (DOCUMENT_TYPE, "block1").
Proof.
  refine (unpushed_item_keeps_its_document engine_with_old_block
            (λ _, Returns (Some (node "course" None (Some 0) None [edited_course 0])))
            "course-v1" true (Some 90)
            (node "course" None (Some 0) None [edited_course 0]) "block1" _ _ _ _ _).
  - reflexivity.
  - reflexivity.
  - split; [reflexivity | intros id; reflexivity].
  - vm_compute. reflexivity.
  - intros p Hp. vm_compute in Hp. by apply elem_of_nil in Hp.
Defined.

(** X14. A pass is idempotent on the engine: after a pass over a course
    on which no accessor raises, with an engine that answers the search and
    the removals, a second pass with the same arguments leaves the engine
    exactly as the first left it and ends the same way (the same count, or
    the same error list). *)
Theorem faultless_pass_is_idempotent
    searcher0 (modulestore : ModuleStore) course_key raise_on_error triggered_at course :
  modulestore course_key = Returns (Some course) →
  faultless_course triggered_at course = true →
  answers searcher0 →
  ∃ after,
    (index_course (Some searcher0) modulestore course_key raise_on_error triggered_at).2
    = Some after
    ∧ index_course (Some after) modulestore course_key raise_on_error triggered_at
      = ((index_course (Some searcher0) modulestore course_key raise_on_error triggered_at).1,
         Some after).
Proof.
  intros Hcourse Hfault Hanswers.
  exists (engine_after_pass course_key triggered_at course searcher0).
  assert (answers (engine_after_pass course_key triggered_at course searcher0)) as Hanswers'.
  { exact Hanswers. }
  rewrite (index_course_faultless _ _ _ raise_on_error _ _ Hcourse Hfault Hanswers').
  rewrite (index_course_faultless _ _ _ raise_on_error _ _ Hcourse Hfault Hanswers).
  split; [reflexivity |].
  cbn [fst]. f_equal. f_equal. apply engine_eq; try done.
  apply purged_stored_idempotent.
Qed.

Lemma faultless_pass_is_idempotent_witness :
  ∃ after,
    (index_course (Some engine_with_orphan) (λ _, Returns (Some (edited_course 0)))
       "course-v1" true (Some 30)).2
    = Some after
    ∧ index_course (Some after) (λ _, Returns (Some (edited_course 0)))
        "course-v1" true (Some 30)
      = ((index_course (Some engine_with_orphan) (λ _, Returns (Some (edited_course 0)))
            "course-v1" true (Some 30)).1,
         Some after).
Proof.
  refine (faultless_pass_is_idempotent engine_with_orphan
            (λ _, Returns (Some (edited_course 0))) "course-v1" true (Some 30)
            (edited_course 0) _ _ _).
  - reflexivity.
  - reflexivity.
  - split; [reflexivity | intros id; reflexivity].
Defined.

(** ** A pass that is cut short *)

#[global] Instance same_oracles_preorder : PreOrder same_oracles.
Proof.
  split.
  - intros st. by split_and!.
  - intros st1 st2 st3 (? & ? & ?) (? & ? & ?). split_and!; congruence.
Qed.

Lemma push_item_same_oracles course_key item id c :
  keeps same_oracles (push_item course_key item id c).
Proof.
  intros st. unfold push_item.
  destruct (index_dictionary item) as [[[d |] | e] |]; simpl; try reflexivity.
  rewrite bind_run. simpl. case_bool_decide; [reflexivity |].
  unfold try_except. rewrite with_searcher_index_run.
  destruct (index_raises (searcher st) _); simpl; by split_and!.
Qed.

Lemma index_item_same_oracles course_key triggered_at item c skip :
  keeps same_oracles (index_item course_key triggered_at item c skip).
Proof.
  apply (index_item_keeps same_oracles).
  - intros id st. by split_and!.
  - right. intros. apply push_item_same_oracles.
Qed.

(** X15. A pass that is cut short removes nothing: when the engine
    answers the search and the removals and the walk and reconciliation
    still raise (so the failure is one of the content store or of an item),
    every id that held a document before [index_course] still holds one
    afterwards; the reconciliation was not run. *)
Theorem interrupted_pass_removes_nothing
    searcher0 (modulestore : ModuleStore) course_key raise_on_error triggered_at course e :
  modulestore course_key = Returns course →
  answers searcher0 →
  (walk_and_reconcile course_key triggered_at course (initial_state searcher0)).1 = Raises e →
  ∃ after,
    (index_course (Some searcher0) modulestore course_key raise_on_error triggered_at).2
    = Some after
    ∧ ∀ k, is_Some (documents searcher0 !! k) → is_Some (documents after !! k).
Proof.
  intros Hcourse Hanswers Hraise.
  destruct (guarded_pass_state course_key triggered_at course (initial_state searcher0))
    as (Hs & _ & _).
  exists (searcher (walk_and_reconcile course_key triggered_at course
                      (initial_state searcher0)).2).
  split.
  { unfold index_course. rewrite Hcourse, Hs. by destruct (raise_on_error && _). }
  clear Hs. unfold walk_and_reconcile in *.
  destruct course as [course |]; [| done].
  rewrite bind_run in *. destruct (get_children course) as [children | e']; [| done].
  simpl in *. rewrite bind_run in *.
  set (walk := for_each (λ item, index_item course_key triggered_at item (start course) false)
                 children) in *.
  assert (keeps only_writes walk) as Hwrites.
  { apply (keeps_for_each only_writes). apply Forall_forall. intros item _.
    apply index_item_only_writes. }
  assert (keeps same_oracles walk) as Horacles.
  { apply (keeps_for_each same_oracles). apply Forall_forall. intros item _.
    apply index_item_same_oracles. }
  specialize (Hwrites (initial_state searcher0)).
  specialize (Horacles (initial_state searcher0)).
  destruct (walk (initial_state searcher0)) as [[[] | e'] st1]; simpl in *.
  - assert (answers (searcher st1)) as Hanswers1.
    { destruct Hanswers as [Hsr Hrr], Horacles as (_ & Hs1 & Hr1).
      split; [by rewrite Hs1 | intros id; by rewrite Hr1]. }
    destruct (remove_deleted_items_purges course_key st1 Hanswers1) as [Hdone _].
    congruence.
  - destruct Hwrites as [_ Hw]. intros [t i] Hsome.
    destruct (decide (documents (searcher st1) !! (t, i) = documents searcher0 !! (t, i)))
      as [-> | Hne]; [done |].
    by destruct (Hw t i Hne) as (_ & _ & ?).
Qed.

Lemma interrupted_pass_removes_nothing_witness :
  ∃ after,
    (index_course (Some engine_with_orphan) (λ _, Returns (Some course_with_bad_block))
       "course-v1" false None).2
    = Some after
    ∧ ∀ k, is_Some (documents engine_with_orphan !! k) → is_Some (documents after !! k).
Proof.
  refine (interrupted_pass_removes_nothing engine_with_orphan
            (λ _, Returns (Some course_with_bad_block)) "course-v1" false None
            (Some course_with_bad_block) (CollaboratorError "index_dictionary") _ _ _).
  - reflexivity.
  - split; [reflexivity | intros id; reflexivity].
  - vm_compute. reflexivity.
Defined.

(** ** The edges of [index_course] *)

(** X16. When [get_course] returns [None], [course.get_children()] fails
    inside the [try]: nothing is indexed and nothing is removed (the engine
    is left exactly as it was), the one error recorded is the general one,
    and [index_course] raises it under [raise_on_error] and returns 0
    otherwise. *)
Theorem missing_course_is_a_general_error
    searcher0 (modulestore : ModuleStore) course_key raise_on_error triggered_at :
  modulestore course_key = Returns None →
  index_course (Some searcher0) modulestore course_key raise_on_error triggered_at
  = (if raise_on_error
     then Raises (SearchIndexingError "Error(s) present during indexing"
                    ["General indexing error occurred"])
     else Returns (Some 0),
     Some searcher0).
Proof.
  intros Hcourse. unfold index_course. rewrite Hcourse. by destruct raise_on_error.
Qed.

Lemma missing_course_is_a_general_error_witness :
  index_course (Some engine_with_orphan) (λ _, Returns None) "course-v1" true None
  = (Raises (SearchIndexingError "Error(s) present during indexing"
               ["General indexing error occurred"]),
     Some engine_with_orphan).
Proof.
  refine (missing_course_is_a_general_error engine_with_orphan (λ _, Returns None)
            "course-v1" true None _).
  reflexivity.
Defined.

(** ** [do_course_reindex] and the tracker *)

(** X17. [do_course_reindex] emits the [edx.course.index.reindexed] event
    exactly when [index_course] returns. Without a search engine it is
    emitted with [indexed_count] [None]; with an engine and a [get_course]
    that returns, it is emitted, with [indexed_count] 0, exactly when the
    pass recorded no error, and otherwise the aggregated error is raised
    and the tracker is left as it was; when [get_course] raises, nothing is
    emitted. In each case the events emitted before are kept. *)
Theorem do_course_reindex_emits_iff_no_error
    (modulestore : ModuleStore) course_key triggered_at tracker :
  do_course_reindex None modulestore course_key triggered_at tracker
  = (Returns None, None, (tracker ++ [reindexed_event None])%list)
  ∧ (∀ searcher0 course,
        modulestore course_key = Returns course →
        let st := (guarded_pass course_key triggered_at course (initial_state searcher0)).2 in
        do_course_reindex (Some searcher0) modulestore course_key triggered_at tracker
        = if bool_decide (error_list st = [])
          then (Returns (Some 0), Some (searcher st),
                (tracker ++ [reindexed_event (Some 0)])%list)
          else (Raises (SearchIndexingError "Error(s) present during indexing" (error_list st)),
                Some (searcher st), tracker))
  ∧ (∀ searcher0 err,
        modulestore course_key = Raises err →
        do_course_reindex (Some searcher0) modulestore course_key triggered_at tracker
        = (Raises err, Some searcher0, tracker)).
Proof.
  split_and!.
  - reflexivity.
  - intros searcher0 course Hcourse. cbv zeta.
    unfold do_course_reindex, index_course. rewrite Hcourse. simpl.
    by destruct (bool_decide (error_list _ = [])).
  - intros searcher0 err Hcourse. unfold do_course_reindex, index_course. by rewrite Hcourse.
Qed.

Lemma do_course_reindex_emits_iff_no_error_witness :
  do_course_reindex (Some refusing_engine) (λ _, Returns (Some course_with_failing_engine))
    "course-v1" None [reindexed_event (Some 0)]
  = (Raises (SearchIndexingError "Error(s) present during indexing"
               ["Could not index item: block1"]),
     Some refusing_engine, [reindexed_event (Some 0)]).
Proof.
  refine (proj1 (proj2 (do_course_reindex_emits_iff_no_error
                          (λ _, Returns (Some course_with_failing_engine))
                          "course-v1" None [reindexed_event (Some 0)]))
            refusing_engine (Some course_with_failing_engine) _).
  reflexivity.
Defined.

(** X18. [_track_index_request] appends one event and keeps the earlier
    ones; its payload always has [indexed_count] (the count, or [None]) and
    the category [courseware_index], and it has a [location_id] exactly
    when a location that is not the empty string was given, and then that
    location; it has no other field. *)
Theorem track_index_request_payload name indexed_count location tracker :
  ∃ data,
    _track_index_request name indexed_count location tracker
    = (tracker ++ [mkEvent name data])%list
    ∧ data !! "indexed_count" = Some (count_payload indexed_count)
    ∧ data !! "category" = Some (PStr "courseware_index")
    ∧ data !! "location_id"
      = match location with
        | Some s => if decide (s = "") then None else Some (PStr s)
        | None => None
        end
    ∧ ∀ k, k ≠ "indexed_count" → k ≠ "category" → k ≠ "location_id" → data !! k = None.
Proof.
  unfold _track_index_request, truthy.
  destruct location as [s |]; [destruct (decide (s = "")) as [-> | Hs] |].
  - rewrite bool_decide_eq_true_2 by done. cbn [negb].
    eexists. split; [reflexivity |]. split_and!; try done.
    intros k ? ? ?. rewrite lookup_insert_ne by done. by rewrite lookup_singleton_ne.
  - rewrite bool_decide_eq_false_2 by done. cbn [negb].
    eexists. split; [reflexivity |]. split_and!; try done.
    intros k ? ? ?. rewrite !lookup_insert_ne by done. by rewrite lookup_singleton_ne.
  - eexists. split; [reflexivity |]. split_and!; try done.
    intros k ? ? ?. rewrite lookup_insert_ne by done. by rewrite lookup_singleton_ne.
Qed.

(** ** The ids the walk can record *)

#[global] Instance records_within_preorder ids : PreOrder (records_within ids).
Proof.
  unfold records_within. split.
  - intros st. set_solver.
  - intros st1 st2 st3 H12 H23 x Hx.
    apply H23, elem_of_union in Hx as [Hx | Hx]; [by apply H12 | by apply elem_of_union_r].
Qed.

Lemma records_within_same ids st st' :
  indexed_items st' = indexed_items st → records_within ids st st'.
Proof. unfold records_within. intros ->. set_solver. Qed.

Lemma push_item_records_within ids course_key item id c :
  keeps (records_within ids) (push_item course_key item id c).
Proof.
  intros st. apply records_within_same. unfold push_item.
  destruct (index_dictionary item) as [[[d |] | e] |]; simpl; try done.
  rewrite bind_run. simpl. case_bool_decide; [done |].
  unfold try_except. rewrite with_searcher_index_run.
  by destruct (index_raises (searcher st) _).
Qed.

Lemma index_item_records_within course_key triggered_at item :
  ∀ ids c skip,
    walked_ids item ⊆ ids →
    keeps (records_within ids) (index_item course_key triggered_at item c skip).
Proof.
  induction item as [item IH] using Item_tree_ind. intros ids c skip Hsub.
  rewrite walked_ids_unfold in Hsub. rewrite index_item_unfold.
  destruct (candidate item); [| apply (keeps_ret (records_within ids))].
  apply (keeps_bind (records_within ids)).
  { intros st x [Hx | Hx]%elem_of_union.
    - by apply elem_of_union_r, Hsub, elem_of_union_l.
    - by apply elem_of_union_l. }
  intros _. apply (keeps_bind (records_within ids)).
  - unfold index_children.
    destruct (has_children item); [| apply (keeps_ret (records_within ids))].
    apply (keeps_bind_lift (records_within ids)). intros skip_child _.
    destruct (get_children item) as [children | e] eqn:Hget;
      [| apply (keeps_raise (records_within ids))].
    apply (keeps_for_each (records_within ids)). specialize (IH children eq_refl).
    apply Forall_forall. intros child Hin. rewrite Forall_forall in IH.
    apply IH; [exact Hin |].
    assert (walked_ids child ⊆ ⋃ (walked_ids <$> children)) as Hchild.
    { intros x Hx. apply elem_of_union_list. exists (walked_ids child).
      split; [| exact Hx]. apply list_elem_of_fmap. by exists child. }
    set_solver.
  - intros _. destruct skip; [apply (keeps_ret (records_within ids)) |].
    apply push_item_records_within.
Qed.

(** X19. Whatever the tree, the engine and the failures on the way, the
    walk of an item keeps every id that was in the indexed-id set and adds
    only ids of items of its subtree that are indexable or have children:
    it never records an id from outside the subtree. *)
Theorem walk_records_only_ids_of_the_subtree course_key triggered_at item c skip st :
  indexed_items st ⊆ indexed_items (index_item course_key triggered_at item c skip st).2
  ∧ indexed_items (index_item course_key triggered_at item c skip st).2
    ⊆ indexed_items st ∪ walked_ids item.
Proof.
  split.
  - by destruct (index_item_grows course_key triggered_at item c skip st) as [? _].
  - by apply (index_item_records_within course_key triggered_at item (walked_ids item)).
Qed.

(** ** A stale container (claim C3) *)

Lemma index_item_returns_walked_ids course_key triggered_at item :
  ∀ c skip st st',
    index_item course_key triggered_at item c skip st = (Returns tt, st') →
    walked_ids item ⊆ indexed_items st'.
Proof.
  induction item as [item IH] using Item_tree_ind. intros c skip st st' Hrun.
  rewrite walked_ids_unfold. rewrite index_item_unfold in Hrun.
  destruct (candidate item); [| intros x Hx; by apply elem_of_empty in Hx].
  rewrite bind_run in Hrun. cbn [indexed_items_add] in Hrun. rewrite bind_run in Hrun.
  set (st1 := {| indexed_items := {[usage_id item]} ∪ indexed_items st;
                 error_list := error_list st; searcher := searcher st |}) in *.
  pose proof (index_children_grows course_key triggered_at item (effective_start item c)
                skip st1) as [Hsub1 _].
  destruct (index_children _ _ _ _ _ st1) as [[[] | e] st2] eqn:Hloop; [| discriminate Hrun].
  simpl in Hsub1.
  assert (indexed_items st2 ⊆ indexed_items st') as Hsub2.
  { destruct skip.
    - injection Hrun as <-. reflexivity.
    - pose proof (push_item_grows course_key item (usage_id item) (effective_start item c) st2)
        as [Hsub _].
      by rewrite Hrun in Hsub. }
  intros x [Hx | Hx]%elem_of_union.
  - apply Hsub2, Hsub1, elem_of_union_l, Hx.
  - apply Hsub2. unfold index_children in Hloop.
    destruct (has_children item); [| by apply elem_of_empty in Hx].
    rewrite bind_run in Hloop.
    destruct (lift (skip_child_index triggered_at item skip) st1) as [[skip_child | e] st1']
      eqn:Hskip; [| discriminate Hloop].
    destruct (get_children item) as [children | e] eqn:Hget; [| discriminate Hloop].
    apply elem_of_union_list in Hx as (ids & Hids & Hx).
    apply list_elem_of_fmap in Hids as (child & -> & Hchild).
    destruct (for_each_returns_elem _ _ child _ _
                ltac:(intros; apply index_item_grows) Hloop Hchild)
      as (sa & sb & Hrun_child & [Hsub _]).
    specialize (IH children eq_refl). rewrite Forall_forall in IH.
    apply Hsub. by eapply (IH child Hchild).
Qed.

(** C3, amended. When [triggered_at] is given and an item with children
    is stale ([triggered_at - subtree_edited_on > REINDEX_AGE]),
    [index_item] visits every child with the skip flag set, whatever flag
    the item itself was called with. So the walk below the item leaves the
    search engine and the error list as they were (no document is built or
    pushed for any descendant), while the item's id is recorded and, when
    the call returns, so is the id of every descendant that is indexable or
    has children. The stale item itself is treated by the flag it was
    called with: skipped when that flag is set, and otherwise its own
    document is built and pushed as usual, on an engine the descendants
    left untouched. *)
Theorem stale_item_skips_descendants course_key t item c skip edited st :
  has_children item = true →
  subtree_edited_on item = Some edited →
  t - edited > REINDEX_AGE →
  let run := index_item course_key (Some t) item c skip st in
  index_item course_key (Some t) item c skip
  = (indexed_items_add (usage_id item);;
     match get_children item with
     | Returns children =>
         for_each (λ child_item,
             index_item course_key (Some t) child_item (effective_start item c) true)
           children
     | Raises e => raise e
     end;;
     if skip then ret tt
     else push_item course_key item (usage_id item) (effective_start item c))
  ∧ (∃ (below : outcome unit) st2,
        searcher st2 = searcher st
        ∧ error_list st2 = error_list st
        ∧ run = match below with
                | Returns _ =>
                    if skip then (Returns tt, st2)
                    else push_item course_key item (usage_id item)
                           (effective_start item c) st2
                | Raises e => (Raises e, st2)
                end)
  ∧ usage_id item ∈ indexed_items run.2
  ∧ (run.1 = Returns tt → walked_ids item ⊆ indexed_items run.2).
Proof.
  intros Hch Hed Hstale. cbv zeta.
  assert (candidate item = true) as Hcand by (by rewrite candidate_spec, Hch, orb_true_r).
  assert (index_item course_key (Some t) item c skip
          = (indexed_items_add (usage_id item);;
             match get_children item with
             | Returns children =>
                 for_each (λ child_item,
                     index_item course_key (Some t) child_item (effective_start item c) true)
                   children
             | Raises e => raise e
             end;;
             if skip then ret tt
             else push_item course_key item (usage_id item) (effective_start item c)))
    as Hunfold.
  { rewrite index_item_unfold, Hcand. unfold index_children.
    rewrite Hch, (stale_skip_child_index t item skip edited Hed Hstale). reflexivity. }
  split_and!.
  - exact Hunfold.
  - rewrite Hunfold, bind_run. cbn [indexed_items_add]. rewrite bind_run.
    set (st1 := {| indexed_items := {[usage_id item]} ∪ indexed_items st;
                   error_list := error_list st; searcher := searcher st |}).
    set (loop := match get_children item with
                 | Returns children =>
                     for_each (λ child_item,
                         index_item course_key (Some t) child_item (effective_start item c)
                           true) children
                 | Raises e => raise e
                 end).
    assert (keeps untouched loop) as Hloop.
    { unfold loop. destruct (get_children item) as [children | e];
        [| apply (keeps_raise untouched)].
      apply (keeps_for_each untouched). apply Forall_forall. intros child _.
      apply index_item_skip_untouched. }
    specialize (Hloop st1). destruct (loop st1) as [below st2].
    destruct Hloop as [Hs He]. exists below, st2. split_and!; [exact Hs | exact He |].
    destruct below as [[] | e]; [by destruct skip | reflexivity].
  - by apply index_item_records.
  - intros Hret.
    destruct (index_item course_key (Some t) item c skip st) as [r st'] eqn:Hrun.
    simpl in Hret. subst r. by eapply index_item_returns_walked_ids.
Qed.

Lemma stale_item_skips_descendants_witness :
  index_item "course-v1" (Some 90) stale_chapter None false (initial_state (quiet_engine ∅))
  = (indexed_items_add "chapter";;
     for_each (λ child_item, index_item "course-v1" (Some 90) child_item None true)
       [leaf "unit" None (Some 85) (titled "unit")];;
     push_item "course-v1" stale_chapter "chapter" None) (initial_state (quiet_engine ∅))
  ∧ walked_ids stale_chapter
    ⊆ indexed_items
        (index_item "course-v1" (Some 90) stale_chapter None false
           (initial_state (quiet_engine ∅))).2.
Proof.
  destruct (stale_item_skips_descendants "course-v1" 90 stale_chapter None false 0
              (initial_state (quiet_engine ∅)) eq_refl eq_refl eq_refl)
    as (Hcalls & _ & _ & Hids).
  split.
  - rewrite Hcalls. reflexivity.
  - apply Hids. vm_compute. reflexivity.
Defined.

(** ** The effective start date in the walk (claim C7) *)

#[global] Instance dated_from_preorder from : PreOrder (dated_from from).
Proof.
  split.
  - intros st k doc Hdoc Hne. by destruct Hne.
  - intros st1 st2 st3 H12 H23 k doc Hdoc Hne.
    destruct (decide (documents (searcher st2) !! k = Some doc)) as [Hmid | Hmid].
    + by apply (H12 k doc).
    + by apply (H23 k doc).
Qed.

Lemma dated_from_same_documents from st st' :
  documents (searcher st') = documents (searcher st) → dated_from from st st'.
Proof. intros Hd k doc Hdoc Hne. rewrite Hd in Hdoc. by destruct Hne. Qed.

Lemma push_item_dated_from from course_key item id c :
  date_le (Some from) c →
  keeps (dated_from from) (push_item course_key item id c).
Proof.
  intros Hle st. unfold push_item.
  destruct (index_dictionary item) as [[[d |] | e] |]; simpl;
    try (by apply dated_from_same_documents).
  rewrite bind_run. simpl. case_bool_decide; [by apply dated_from_same_documents |].
  unfold try_except. rewrite with_searcher_index_run.
  destruct (index_raises (searcher st) _); simpl; [by apply dated_from_same_documents |].
  intros k doc Hdoc Hne. simpl in Hdoc.
  destruct (decide ((DOCUMENT_TYPE, id) = k)) as [<- | Hother].
  - rewrite lookup_insert_eq in Hdoc. injection Hdoc as <-.
    destruct c as [date |]; [| done]. exists date. split; [| exact Hle].
    rewrite build_item_index_lookup. by rewrite decide_True.
  - rewrite lookup_insert_ne in Hdoc by done. by destruct Hne.
Qed.

Lemma index_item_dated_from course_key triggered_at item :
  ∀ from c skip,
    date_le (Some from) (effective_start item c) →
    keeps (dated_from from) (index_item course_key triggered_at item c skip).
Proof.
  induction item as [item IH] using Item_tree_ind. intros from c skip Hle.
  rewrite index_item_unfold.
  destruct (candidate item); [| apply (keeps_ret (dated_from from))].
  apply (keeps_bind (dated_from from)).
  { intros st. by apply dated_from_same_documents. }
  intros _. apply (keeps_bind (dated_from from)).
  - unfold index_children.
    destruct (has_children item); [| apply (keeps_ret (dated_from from))].
    apply (keeps_bind_lift (dated_from from)). intros skip_child _.
    destruct (get_children item) as [children | e] eqn:Hget;
      [| apply (keeps_raise (dated_from from))].
    apply (keeps_for_each (dated_from from)). specialize (IH children eq_refl).
    apply Forall_forall. intros child Hin. rewrite Forall_forall in IH.
    apply IH; [exact Hin |].
    etransitivity; [exact Hle | apply effective_start_above].
  - intros _. destruct skip; [apply (keeps_ret (dated_from from)) |].
    by apply push_item_dated_from.
Qed.

(** C7. The start date [index_item] works with is the maximum of the
    inherited date and the item's own [start] (the own [start] when nothing
    is inherited, the inherited date when the item has no [start]), so it
    is never below the inherited date. This is the date the walk threads
    on: [index_item] calls itself on every child with that date as the
    inherited one, and puts it into the item's own document. Hence the date
    does not decrease from a call to any call below it, and every document
    written anywhere in the subtree of an item carries a [start_date] that
    is not before the item's effective start date. *)
Theorem effective_start_date_nondecreasing course_key triggered_at item c skip st w :
  effective_start item c =
    match start item, c with
    | Some s, Some inherited => Some (Z.max inherited s)
    | Some s, None => Some s
    | None, _ => c
    end
  ∧ date_le c (effective_start item c)
  ∧ index_item course_key triggered_at item c skip
    = (if is_indexable item || has_children item then
         indexed_items_add (usage_id item);;
         (if has_children item then
            skip_child ← lift (skip_child_index triggered_at item skip);
            match get_children item with
            | Returns children =>
                for_each (λ child_item,
                    index_item course_key triggered_at child_item
                      (effective_start item c) skip_child)
                  children
            | Raises e => raise e
            end
          else ret tt);;
         if skip then ret tt
         else push_item course_key item (usage_id item) (effective_start item c)
       else ret tt)
  ∧ (∀ from k doc,
        date_le (Some from) (effective_start item c) →
        documents (searcher (index_item course_key triggered_at item c skip st).2) !! k
        = Some doc →
        documents (searcher st) !! k ≠ Some doc →
        ∃ d, doc !! "start_date" = Some (VDate d) ∧ from ≤ d)
  ∧ (rtc (calls triggered_at) (Visit item c skip) w →
     date_le (effective_start item c) (visit_start w)).
Proof.
  split_and!.
  - apply effective_start_max.
  - apply effective_start_above.
  - rewrite index_item_unfold, candidate_spec. reflexivity.
  - intros from k doc Hle.
    apply (index_item_dated_from course_key triggered_at item from c skip Hle st).
  - change (effective_start item c) with (visit_start (Visit item c skip)).
    generalize (Visit item c skip). intros v.
    induction 1 as [v | v u w Hstep _ IH]; [reflexivity |].
    etransitivity; [by eapply calls_visit_start | exact IH].
Qed.

Lemma effective_start_date_nondecreasing_witness :
  ∃ d,
    build_item_index "course-v1" "early" {["title" := VStr "early"]} (Some 20) !! "start_date"
    = Some (VDate d)
    ∧ 20 ≤ d.
Proof.
  refine (proj1 (proj2 (proj2 (proj2
            (effective_start_date_nondecreasing "course-v1" None
               (node "chapter" (Some 20) (Some 0) None
                  [leaf "early" (Some 10) None (titled "early")])
               (Some 5) false (initial_state (quiet_engine ∅))
               (Visit (leaf "early" (Some 10) None (titled "early")) (Some 20) false)))))
            20 (DOCUMENT_TYPE, "early")
            (build_item_index "course-v1" "early" {["title" := VStr "early"]} (Some 20))
            _ _ _).
  - vm_compute. discriminate.
  - vm_compute. reflexivity.
  - vm_compute. discriminate.
Defined.
